(** * gormstore: session persistence over a GORM table

    A shallow embedding of the two session stores of the repository:

    - [Driver]: the pluggable backend of [src/gormstore.go]
      ([Read]/[Write]/[Destroy]/[Gc]/[Close]);
    - [Cookie]: the self-contained store, which also owns the cookie
      half of the protocol ([New]/[Save]/[MaxAge]/[MaxLength]/[Cleanup]).

    The ORM, the clock, the random source and the secure-cookie codec are
    external collaborators.  They are modelled once, below, and the store
    code is transcribed on top of them with the state they touch made
    explicit.  [Store.Get] (the session registry of the sessions package)
    and [PeriodicCleanup] (a ticker loop around [Cleanup]) are left out. *)

From stdpp Require Import base option gmap strings list fin_maps.
From Stdlib Require Import ZArith Lia Strings.Ascii.

Local Open Scope Z_scope.

(** ** Time, integers, errors *)

(** A [time.Time] instant, in nanoseconds since the Unix epoch. *)
Definition Time : Type := Z.

(** The zero [time.Time] (January 1, year 1, 00:00 UTC). *)
Definition zeroTime : Time := -62135596800 * 1000000000.

(** Go's [int64] arithmetic wraps around on overflow. *)
Definition wrap64 (z : Z) : Z := (z + 2 ^ 63) mod 2 ^ 64 - 2 ^ 63.

Definition minInt64 : Z := - 2 ^ 63.
Definition maxInt64 : Z := 2 ^ 63 - 1.

(** [time.Second], a [time.Duration] counted in nanoseconds. *)
Definition Second : Z := 1000000000.

(** [t.Add(d)]. *)
Definition Time_Add (t : Time) (d : Z) : Time := t + d.

(** Go's [error] values; [None] is [nil]. *)
Definition error : Type := string.

(** What a call can do: return, or panic with a message. *)
Inductive outcome (A : Type) : Type :=
| Ret (a : A)
| Panic (msg : string).
Arguments Ret {A} a.
Arguments Panic {A} msg.

#[global] Instance outcome_ret : MRet outcome := λ A a, Ret a.
#[global] Instance outcome_bind : MBind outcome := λ A B f m,
  match m with
  | Ret a => f a
  | Panic msg => Panic msg
  end.

(** A library call that reports failure through an [error] result. *)
Inductive result (A : Type) : Type :=
| Ok (a : A)
| Err (e : error).
Arguments Ok {A} a.
Arguments Err {A} e.

(** ** The relational store collaborator

    The operations the stores call on [*gorm.DB], with the contract of
    section 6 of the specification: upsert, insert, lookup and delete by
    primary key, delete by predicate, table creation.

    A connection holds named tables.  The [id] column is the primary key,
    so a table is a finite map from [id] to the remaining columns.  Every
    statement may fail: either because the connection reports an error
    (the head of [faults], consumed statement by statement), or because
    the named table does not exist.  A failed statement changes no row. *)
Section Gorm.
Context {Cols : Type}.

Record DB : Type := mkDB {
  tables : gmap string (gmap string Cols);
  faults : list (option error)
}.

Definition next_fault (db : DB) : option error :=
  match faults db with
  | Some e :: _ => Some e
  | _ => None
  end.

(** The error the next statement on table [tn] would report. *)
Definition stmt_error (tn : string) (db : DB) : option error :=
  match next_fault db with
  | Some e => Some e
  | None =>
      match tables db !! tn with
      | Some _ => None
      | None => Some ("no such table: " +:+ tn)
      end
  end.

Definition consume (db : DB) : DB :=
  {| tables := tables db; faults := tail (faults db) |}.

(** The rows of table [tn] (none when the table is missing). *)
Definition rows_of (tn : string) (db : DB) : gmap string Cols :=
  default ∅ (tables db !! tn).

(** A statement rewriting the rows of [tn]. *)
Definition exec (tn : string) (f : gmap string Cols → gmap string Cols)
    (db : DB) : option error * DB :=
  match stmt_error tn db with
  | Some e => (Some e, consume db)
  | None =>
      (None, {| tables := <[tn := f (rows_of tn db)]> (tables db);
                faults := tail (faults db) |})
  end.

(** [AutoMigrate(&row{})]: create the table when it is missing. *)
Definition tx_AutoMigrate (tn : string) (db : DB) : option error * DB :=
  match next_fault db with
  | Some e => (Some e, consume db)
  | None =>
      (None, {| tables := <[tn := rows_of tn db]> (tables db);
                faults := tail (faults db) |})
  end.

(** [Delete(&row{}, cond, args...)]: bulk delete of the rows matching a
    condition over (id, columns).  Matching no row is not an error. *)
Definition tx_Delete (tn : string) (P : string * Cols → Prop)
    `{!∀ kv, Decision (P kv)} (db : DB) : option error * DB :=
  exec tn (filter (λ kv, ¬ P kv)) db.

(** [Delete(row)]: delete by primary key. *)
Definition tx_Delete_pk (tn : string) (id : string) (db : DB) : option error * DB :=
  exec tn (delete id) db.

(** [Where(cond, args...).Limit(1).Find(dest)]: the result carries
    [Error] and the row found, if any ([RowsAffected] is 1 or 0). *)
Definition tx_Find (tn : string) (id : string) (P : Cols → Prop)
    `{!∀ c, Decision (P c)} (db : DB) : (option error * option Cols) * DB :=
  match stmt_error tn db with
  | Some e => ((Some e, None), consume db)
  | None =>
      ((None, match rows_of tn db !! id with
              | Some c => if decide (P c) then Some c else None
              | None => None
              end), consume db)
  end.

(** [Create(row)]: plain insert; a second row with the same primary key
    is refused by the table. *)
Definition tx_Create (tn : string) (id : string) (c : Cols) (db : DB)
    : option error * DB :=
  match stmt_error tn db with
  | Some e => (Some e, consume db)
  | None =>
      match rows_of tn db !! id with
      | Some _ => (Some "duplicated key not allowed"%string, consume db)
      | None => exec tn (<[id := c]>) db
      end
  end.

(** [Save(row)]: upsert by primary key.  [upd] refreshes the columns of
    the row already stored, [ins] are the columns of a new row. *)
Definition tx_Save (tn : string) (id : string) (upd : Cols → Cols) (ins : Cols)
    (db : DB) : option error * DB :=
  exec tn (λ t, match t !! id with
                | Some c => <[id := upd c]> t
                | None => <[id := ins]> t
                end) db.
End Gorm.
Arguments DB : clear implicits.

(** ** The driver variant ([src/gormstore.go]) *)
Module Driver.

Definition defaultTableName : string := "sessions".

Record Options : Type := {
  TableName : string;
  SkipCreateTable : bool
}.

Record gormSession : Type := {
  ID : string;
  Data : string;
  CreatedAt : Time;
  UpdatedAt : Time
}.

(** The columns of a row other than its primary key [id]. *)
Record Cols : Type := {
  data : string;
  created_at : Time;
  updated_at : Time
}.

Definition of_row (id : string) (c : Cols) : gormSession :=
  {| ID := id; Data := data c;
     CreatedAt := created_at c; UpdatedAt := updated_at c |}.

(** The process as the store sees it: the connection and the clock. *)
Record World : Type := {
  conn : DB Cols;
  now : Time
}.

Definition with_conn (w : World) (d : DB Cols) : World :=
  {| conn := d; now := now w |}.

(** [Store.db] is a handle on [conn]; the store itself keeps the options. *)
Record Store : Type := { opts : Options }.

(** [st.sessionTable()] selects the table named [st.opts.TableName]. *)
Definition sessionTable (st : Store) : string := TableName (opts st).

Definition NewOptions (o : Options) (w : World) : Store * World :=
  let st := {| opts := o |} in
  let st :=
    if decide (TableName (opts st) = "")
    then {| opts := {| TableName := defaultTableName;
                       SkipCreateTable := SkipCreateTable (opts st) |} |}
    else st in
  if negb (SkipCreateTable (opts st))
  then (st, with_conn w (tx_AutoMigrate (sessionTable st) (conn w)).2)
  else (st, w).

Definition New (w : World) : Store * World :=
  NewOptions {| TableName := ""; SkipCreateTable := false |} w.

Definition Close (st : Store) (w : World) : option error * World := (None, w).

Definition Destroy (st : Store) (id : string) (w : World) : option error * World :=
  let tx := tx_Delete (sessionTable st) (λ kv, kv.1 = id) (conn w) in
  (tx.1, with_conn w tx.2).

(** [getSessionByID]: [nil] only when the statement fails; when no row
    matches, [Find] leaves the zero [gormSession] it was given. *)
Definition getSessionByID (st : Store) (id : string) (w : World)
    : option gormSession * World :=
  let s := {| ID := ""; Data := ""; CreatedAt := zeroTime; UpdatedAt := zeroTime |} in
  let sr := tx_Find (sessionTable st) id (λ _, True) (conn w) in
  match sr.1.1 with
  | Some _ => (None, with_conn w sr.2)
  | None => (Some (from_option (of_row id) s sr.1.2), with_conn w sr.2)
  end.

Definition Read (st : Store) (id : string) (w : World)
    : (string * option error) * World :=
  let s := getSessionByID st id w in
  match s.1 with
  | Some s' => ((Data s', None), s.2)
  | None => (("", None), s.2)
  end.

(** The cutoff of [Gc]: [time.Now().Add(-time.Duration(maxLifetime)*time.Second)],
    with the [int64] arithmetic of [time.Duration]. *)
Definition gc_cutoff (maxLifetime : Z) (t : Time) : Time :=
  Time_Add t (wrap64 (wrap64 (- wrap64 maxLifetime) * Second)).

Definition Gc (st : Store) (maxLifetime : Z) (w : World) : option error * World :=
  let cutoff := gc_cutoff maxLifetime (now w) in
  let tx :=
    tx_Delete (sessionTable st) (λ kv, updated_at kv.2 < cutoff) (conn w) in
  (tx.1, with_conn w tx.2).

(** [Write]: the ORM stamps the row it saves: a new row gets both
    timestamps, a stored row keeps [created_at] and has [updated_at]
    refreshed. *)
Definition Write (st : Store) (id : string) (data' : string) (w : World)
    : option error * World :=
  let s := {| ID := id; Data := data'; CreatedAt := zeroTime; UpdatedAt := zeroTime |} in
  let tx :=
    tx_Save (sessionTable st) (ID s)
      (λ c, {| data := Data s; created_at := created_at c; updated_at := now w |})
      {| data := Data s; created_at := now w; updated_at := now w |}
      (conn w) in
  (tx.1, with_conn w tx.2).

(** The rows of the store's table. *)
Definition records (st : Store) (w : World) : gmap string Cols :=
  rows_of (sessionTable st) (conn w).

(** The error the store's next statement would report, if any. *)
Definition store_error (st : Store) (w : World) : option error :=
  stmt_error (sessionTable st) (conn w).

End Driver.


(** ** [encoding/base32], [strings.TrimRight]

    [base32.StdEncoding] is the RFC 4648 alphabet with ['='] padding.
    Bytes are integers; every 5-bit group is masked before it indexes
    the alphabet. *)
Module base32.

Definition encodeStd : list ascii :=
  String.list_ascii_of_string "ABCDEFGHIJKLMNOPQRSTUVWXYZ234567".

Definition StdPadding : ascii := "="%char.

(** [enc.encode[b&31]] *)
Definition enc_char (b : Z) : ascii :=
  nth (Z.to_nat (Z.land b 31)) encodeStd "A"%char.

(** The eight 5-bit groups of a 5-byte quantum. *)
Definition quantum (s0 s1 s2 s3 s4 : Z) : list Z :=
  [ Z.shiftr s0 3;
    Z.lor (Z.land (Z.shiftr s1 6) 31) (Z.land (Z.shiftl s0 2) 31);
    Z.land (Z.shiftr s1 1) 31;
    Z.lor (Z.land (Z.shiftr s2 4) 31) (Z.land (Z.shiftl s1 4) 31);
    Z.lor (Z.shiftr s3 7) (Z.land (Z.shiftl s2 1) 31);
    Z.land (Z.shiftr s3 2) 31;
    Z.lor (Z.shiftr s4 5) (Z.land (Z.shiftl s3 3) 31);
    Z.land s4 31 ].

(** The characters of a quantum of which only the first [n] groups
    carry input bits; the rest is padding. *)
Definition quantum_chars (n : nat) (s0 s1 s2 s3 s4 : Z) : list ascii :=
  map enc_char (take n (quantum s0 s1 s2 s3 s4)) ++ replicate (8 - n)%nat StdPadding.

Fixpoint Encode (src : list Z) : list ascii :=
  match src with
  | [] => []
  | [s0] => quantum_chars 2 s0 0 0 0 0
  | [s0; s1] => quantum_chars 4 s0 s1 0 0 0
  | [s0; s1; s2] => quantum_chars 5 s0 s1 s2 0 0
  | [s0; s1; s2; s3] => quantum_chars 7 s0 s1 s2 s3 0
  | s0 :: s1 :: s2 :: s3 :: s4 :: rest =>
      quantum_chars 8 s0 s1 s2 s3 s4 ++ Encode rest
  end.

Definition EncodeToString (src : list Z) : string :=
  String.string_of_list_ascii (Encode src).
End base32.

(** [strings.TrimRight(s, cutset)] for a one-character cutset. *)
Fixpoint trim_right_chars (c : ascii) (l : list ascii) : list ascii :=
  match l with
  | [] => []
  | x :: l' =>
      match trim_right_chars c l' with
      | [] => if decide (x = c) then [] else [x]
      | r => x :: r
      end
  end.

Definition TrimRight (s : string) (c : ascii) : string :=
  String.string_of_list_ascii (trim_right_chars c (String.list_ascii_of_string s)).

(** ** The self-contained variant (cookie store) *)
Module Cookie.

Definition sessionIDLen : nat := 32.
Definition defaultTableName : string := "sessions".
Definition defaultMaxAge : Z := 60 * 60 * 24 * 30.
Definition defaultPath : string := "/".

Record Options : Type := {
  TableName : string;
  SkipCreateTable : bool
}.

(** [sessions.Options], the cookie attributes of a session. *)
Record sessions_Options : Type := {
  opt_Path : string;
  opt_Domain : string;
  opt_MaxAge : Z;
  opt_Secure : bool;
  opt_HttpOnly : bool
}.

(** [session.Values]. *)
Abbreviation Values := (gmap string string).

(** What the store hands to the envelope: the session values, or the
    session ID. *)
Inductive payload : Type :=
| PValues (v : Values)
| PString (s : string).

Inductive serializer : Type := DefaultSerializer | GobEncoder.

(** [securecookie.Options]; a field left out of a literal is zero. *)
Record securecookie_Options : Type := {
  sc_MaxAge : Z;
  sc_MaxLength : Z;
  sc_RotatedKeys : list (list Z);
  sc_Serializer : serializer
}.

(** The secure-cookie package, as far as the store uses it.  [wire] is
    the type of encoded values: Go strings that the store only stores,
    compares with nothing and passes back.  [Encode] and [Decode] read
    the clock. *)
Class SecureCookieLib : Type := {
  wire : Type;
  wire_empty : wire;
  SecureCookie : Type;
  securecookie_New : list Z → securecookie_Options → result SecureCookie;
  Encode : SecureCookie → string → Time → payload → result wire;
  Decode_string : SecureCookie → string → Time → wire → result string;
  Decode_values : SecureCookie → string → Time → wire → result Values
}.

Section Store.
Context `{lib : SecureCookieLib}.

Record gormSession : Type := {
  ID : string;
  Data : wire;
  CreatedAt : Time;
  UpdatedAt : Time;
  ExpiresAt : Time
}.

(** The columns of a row other than its primary key [id]. *)
Record Cols : Type := {
  data : wire;
  created_at : Time;
  updated_at : Time;
  expires_at : Time
}.

Definition of_row (id : string) (c : Cols) : gormSession :=
  {| ID := id; Data := data c; CreatedAt := created_at c;
     UpdatedAt := updated_at c; ExpiresAt := expires_at c |}.

Definition to_row (s : gormSession) : Cols :=
  {| data := Data s; created_at := CreatedAt s;
     updated_at := UpdatedAt s; expires_at := ExpiresAt s |}.

(** The process as the store sees it: the connection, the clock, the
    random source ([entropy], read from position [drawn] on) and the
    package variable [securecookie.DefaultOptions]. *)
Record World : Type := {
  conn : DB Cols;
  now : Time;
  entropy : nat → Z;
  drawn : nat;
  DefaultOptions : securecookie_Options
}.

Definition with_conn (w : World) (d : DB Cols) : World :=
  {| conn := d; now := now w; entropy := entropy w; drawn := drawn w;
     DefaultOptions := DefaultOptions w |}.

Definition with_DefaultOptions (w : World) (o : securecookie_Options) : World :=
  {| conn := conn w; now := now w; entropy := entropy w; drawn := drawn w;
     DefaultOptions := o |}.

(** [securecookie.GenerateRandomKey(length)]: the next [length] bytes
    of the random source. *)
Definition GenerateRandomKey (length : nat) (w : World) : list Z * World :=
  (map (λ i, entropy w (drawn w + i)%nat `mod` 256) (seq 0 length),
   {| conn := conn w; now := now w; entropy := entropy w;
      drawn := (drawn w + length)%nat; DefaultOptions := DefaultOptions w |}).

(** [*Store]; [secureCookie] is [None] for the nil pointer. *)
Record Store : Type := {
  opts : Options;
  keys : list (list Z);
  secureCookie : option SecureCookie;
  SessionOpts : sessions_Options
}.

(** An [http.Cookie], in a request or in a [Set-Cookie] header. *)
Record http_Cookie : Type := {
  Cookie_Name : string;
  Cookie_Value : wire;
  Cookie_Path : string;
  Cookie_Domain : string;
  Cookie_MaxAge : Z;
  Cookie_Secure : bool;
  Cookie_HttpOnly : bool
}.

(** [*http.Request], as far as the store reads it. *)
Record Request : Type := { Cookies : list http_Cookie }.

(** [r.Cookie(name)]: the first cookie of that name, if any. *)
Definition Request_Cookie (r : Request) (name : string) : option http_Cookie :=
  List.find (λ c, bool_decide (Cookie_Name c = name)) (Cookies r).

(** [sessions.NewCookie(name, value, options)]. *)
Definition NewCookie (name : string) (value : wire) (o : sessions_Options)
    : http_Cookie :=
  {| Cookie_Name := name; Cookie_Value := value; Cookie_Path := opt_Path o;
     Cookie_Domain := opt_Domain o; Cookie_MaxAge := opt_MaxAge o;
     Cookie_Secure := opt_Secure o; Cookie_HttpOnly := opt_HttpOnly o |}.

(** [http.ResponseWriter]: the [Set-Cookie] headers written so far. *)
Abbreviation ResponseWriter := (list http_Cookie).

Definition SetCookie (rw : ResponseWriter) (c : http_Cookie) : ResponseWriter :=
  rw ++ [c].

(** [*sessions.Session]. *)
Record Session : Type := {
  Session_ID : string;
  Session_Values : Values;
  Session_Options : sessions_Options;
  Session_IsNew : bool;
  Session_name : string
}.

(** [sessions.NewSession(store, name)]. *)
Definition NewSession (name : string) : Session :=
  {| Session_ID := ""; Session_Values := ∅;
     Session_Options := {| opt_Path := ""; opt_Domain := ""; opt_MaxAge := 0;
                           opt_Secure := false; opt_HttpOnly := false |};
     Session_IsNew := false; Session_name := name |}.

(** [st.sessionTable()] *)
Definition sessionTable (st : Store) : string := TableName (opts st).

(** The pointer returned by [securecookie.New], the error dropped. *)
Definition drop_err {A} (r : result A) : option A :=
  match r with
  | Ok a => Some a
  | Err _ => None
  end.

Definition NewOptions (o : Options) (keys' : list (list Z)) (w : World)
    : outcome (Store * World) :=
  match keys' with
  | [] => Panic "key required"
  | k0 :: rotated =>
      let sc := drop_err (securecookie_New k0
                  {| sc_MaxAge := 0; sc_MaxLength := 0;
                     sc_RotatedKeys := rotated; sc_Serializer := GobEncoder |}) in
      let st := {| opts := o; keys := keys'; secureCookie := sc;
                   SessionOpts := {| opt_Path := defaultPath; opt_Domain := "";
                                     opt_MaxAge := defaultMaxAge;
                                     opt_Secure := false; opt_HttpOnly := false |} |} in
      let st :=
        if decide (TableName (opts st) = "")
        then {| opts := {| TableName := defaultTableName;
                           SkipCreateTable := SkipCreateTable (opts st) |};
                keys := keys st; secureCookie := secureCookie st;
                SessionOpts := SessionOpts st |}
        else st in
      if negb (SkipCreateTable (opts st))
      then Ret (st, with_conn w (tx_AutoMigrate (sessionTable st) (conn w)).2)
      else Ret (st, w)
  end.

Definition New (keys' : list (list Z)) (w : World) : outcome (Store * World) :=
  NewOptions {| TableName := ""; SkipCreateTable := false |} keys' w.

(** [MaxAge] sets the maximum age for the store and the envelope. *)
Definition MaxAge (st : Store) (age : Z) (w : World) : outcome (Store * World) :=
  let w := with_DefaultOptions w
             {| sc_MaxAge := age;
                sc_MaxLength := sc_MaxLength (DefaultOptions w);
                sc_RotatedKeys := sc_RotatedKeys (DefaultOptions w);
                sc_Serializer := sc_Serializer (DefaultOptions w) |} in
  match keys st with
  | [] => Panic "index out of range [0] with length 0"
  | k0 :: rotated =>
      let sc := drop_err (securecookie_New k0
                  {| sc_MaxAge := age;
                     sc_MaxLength := sc_MaxLength (DefaultOptions w);
                     sc_RotatedKeys := rotated; sc_Serializer := GobEncoder |}) in
      Ret ({| opts := opts st; keys := keys st; secureCookie := sc;
              SessionOpts := {| opt_Path := opt_Path (SessionOpts st);
                                opt_Domain := opt_Domain (SessionOpts st);
                                opt_MaxAge := age;
                                opt_Secure := opt_Secure (SessionOpts st);
                                opt_HttpOnly := opt_HttpOnly (SessionOpts st) |} |},
           w)
  end.

(** [MaxLength] restricts the maximum length of new sessions to [l]. *)
Definition MaxLength (st : Store) (l : Z) (w : World) : outcome (Store * World) :=
  let w := with_DefaultOptions w
             {| sc_MaxAge := sc_MaxAge (DefaultOptions w);
                sc_MaxLength := l;
                sc_RotatedKeys := sc_RotatedKeys (DefaultOptions w);
                sc_Serializer := sc_Serializer (DefaultOptions w) |} in
  match keys st with
  | [] => Panic "index out of range [0] with length 0"
  | k0 :: rotated =>
      let sc := drop_err (securecookie_New k0
                  {| sc_MaxAge := sc_MaxAge (DefaultOptions w);
                     sc_MaxLength := l;
                     sc_RotatedKeys := rotated; sc_Serializer := GobEncoder |}) in
      Ret ({| opts := opts st; keys := keys st; secureCookie := sc;
              SessionOpts := SessionOpts st |}, w)
  end.

(** A method called through a nil [*SecureCookie]. *)
Definition deref (sc : option SecureCookie) : outcome SecureCookie :=
  match sc with
  | Some sc => Ret sc
  | None => Panic "invalid memory address or nil pointer dereference"
  end.

(** [getSessionFromCookie] looks for an existing [gormSession] from a
    session ID stored inside a cookie. *)
Definition getSessionFromCookie (st : Store) (r : Request) (name : string)
    (w : World) : outcome (option gormSession * World) :=
  match Request_Cookie r name with
  | Some cookie =>
      sc ← deref (secureCookie st);
      match Decode_string sc name (now w) (Cookie_Value cookie) with
      | Err _ => Ret (None, w)
      | Ok sessionID =>
          let sr := tx_Find (sessionTable st) sessionID
                      (λ c, expires_at c > now w) (conn w) in
          match sr.1 with
          | (Some _, _) | (None, None) => Ret (None, with_conn w sr.2)
          | (None, Some c) => Ret (Some (of_row sessionID c), with_conn w sr.2)
          end
      end
  | None => Ret (None, w)
  end.

(** [Store.New] creates a session with [name] without adding it to
    the registry.  The error result is always nil. *)
Definition Store_New (st : Store) (r : Request) (name : string) (w : World)
    : outcome (Session * Store * World) :=
  let session := NewSession name in
  let session :=
    {| Session_ID := Session_ID session; Session_Values := Session_Values session;
       Session_Options := SessionOpts st; Session_IsNew := true;
       Session_name := Session_name session |} in
  '(st, w) ← MaxAge st (opt_MaxAge (SessionOpts st)) w;
  '(s, w) ← getSessionFromCookie st r (Session_name session) w;
  match s with
  | Some s =>
      sc ← deref (secureCookie st);
      match Decode_values sc (Session_name session) (now w) (Data s) with
      | Err _ => Ret (session, st, w)
      | Ok v =>
          Ret ({| Session_ID := ID s; Session_Values := v;
                  Session_Options := Session_Options session;
                  Session_IsNew := false;
                  Session_name := Session_name session |}, st, w)
      end
  | None => Ret (session, st, w)
  end.

(** The session [Store.New] hands out when nothing is loaded. *)
Definition fresh_session (st : Store) (name : string) : Session :=
  {| Session_ID := ""; Session_Values := ∅;
     Session_Options := SessionOpts st; Session_IsNew := true;
     Session_name := name |}.

Definition with_ID (session : Session) (id : string) : Session :=
  {| Session_ID := id; Session_Values := Session_Values session;
     Session_Options := Session_Options session;
     Session_IsNew := Session_IsNew session;
     Session_name := Session_name session |}.

(** What [Save] leaves behind: its error result, the session (whose
    ID it may set), the response headers and the process. *)
Record Saved : Type := {
  err : option error;
  session' : Session;
  headers' : ResponseWriter;
  world' : World
}.

(** The session ID of a new record. *)
Definition newSessionID (rnd : list Z) : string :=
  TrimRight (base32.EncodeToString rnd) "="%char.

(** [Save] session and set cookie header. *)
Definition Save (st : Store) (r : Request) (rw : ResponseWriter)
    (session : Session) (w : World) : outcome Saved :=
  '(s, w) ← getSessionFromCookie st r (Session_name session) w;
  if decide (opt_MaxAge (Session_Options session) < 0) then
    let cleared :=
      SetCookie rw (NewCookie (Session_name session) wire_empty
                      (Session_Options session)) in
    match s with
    | Some s =>
        let tx := tx_Delete_pk (sessionTable st) (ID s) (conn w) in
        match tx.1 with
        | Some e => Ret {| err := Some e; session' := session; headers' := rw;
                           world' := with_conn w tx.2 |}
        | None => Ret {| err := None; session' := session; headers' := cleared;
                         world' := with_conn w tx.2 |}
        end
    | None => Ret {| err := None; session' := session; headers' := cleared;
                     world' := w |}
    end
  else
    sc ← deref (secureCookie st);
    match Encode sc (Session_name session) (now w)
            (PValues (Session_Values session)) with
    | Err e => Ret {| err := Some e; session' := session; headers' := rw;
                      world' := w |}
    | Ok data' =>
        let now' := now w in
        let expire :=
          Time_Add now' (wrap64 (Second * opt_MaxAge (Session_Options session))) in
        let '(session, s, tx, w) :=
          match s with
          | None =>
              let '(rnd, w) := GenerateRandomKey sessionIDLen w in
              let session := with_ID session (newSessionID rnd) in
              let s := {| ID := Session_ID session; Data := data';
                          CreatedAt := now'; UpdatedAt := now';
                          ExpiresAt := expire |} in
              (session, s,
               tx_Create (sessionTable st) (ID s) (to_row s) (conn w), w)
          | Some s =>
              let s := {| ID := ID s; Data := data'; CreatedAt := CreatedAt s;
                          UpdatedAt := now'; ExpiresAt := expire |} in
              (session, s,
               tx_Save (sessionTable st) (ID s) (λ _, to_row s) (to_row s) (conn w),
               w)
          end in
        match tx.1 with
        | Some e => Ret {| err := Some e; session' := session; headers' := rw;
                           world' := with_conn w tx.2 |}
        | None =>
            let w := with_conn w tx.2 in
            match Encode sc (Session_name session) (now w) (PString (ID s)) with
            | Err e => Ret {| err := Some e; session' := session; headers' := rw;
                              world' := w |}
            | Ok id =>
                Ret {| err := None; session' := session;
                       headers' := SetCookie rw (NewCookie (Session_name session)
                                     id (Session_Options session));
                       world' := w |}
            end
        end
    end.

(** [Cleanup] deletes expired sessions; the result of the statement
    is not looked at. *)
Definition Cleanup (st : Store) (w : World) : World :=
  with_conn w
    (tx_Delete (sessionTable st) (λ kv, expires_at kv.2 ≤ now w) (conn w)).2.

(** The rows of the store's table. *)
Definition records (st : Store) (w : World) : gmap string Cols :=
  rows_of (sessionTable st) (conn w).

(** The error the store's next statement would report, if any. *)
Definition store_error (st : Store) (w : World) : option error :=
  stmt_error (sessionTable st) (conn w).

(** The stores a program can reach from a list of keys: the one
    [NewOptions] builds, then any number of [MaxAge] and [MaxLength]
    calls on it. *)
Inductive configured (ks : list (list Z)) : Store → Prop :=
| configured_NewOptions o w st w' :
    NewOptions o ks w = Ret (st, w') → configured ks st
| configured_MaxAge st age w st' w' :
    configured ks st → MaxAge st age w = Ret (st', w') → configured ks st'
| configured_MaxLength st l w st' w' :
    configured ks st → MaxLength st l w = Ret (st', w') → configured ks st'.
End Store.
End Cookie.

(** ** The secure envelope

    Modelled from the spec: the secure-cookie package is not part of the
    repository; section 4.4 of the specification describes the envelope
    it provides.  Cryptography is idealised: an encoded value is the
    term [Sealed key name ts p], which nobody can make without [key], and
    any other string ([Plain]) authenticates under no key.

    - the first key of the envelope is the only one used to encode;
    - the first key and the rotated keys are accepted when decoding;
    - a maximum age (seconds, 0 for none) rejects older values;
    - a maximum encoded length (bytes, 0 for none) rejects longer ones. *)
Module Envelope.
Import Cookie.

Inductive Wire : Type :=
| Plain (s : string)
| Sealed (key : list Z) (name : string) (ts : Time) (p : payload).

Record SC : Type := {
  sc_key : list Z;
  sc_opts : securecookie_Options
}.

Definition payload_len (p : payload) : Z :=
  match p with
  | PString s => Z.of_nat (String.length s)
  | PValues v =>
      map_fold (λ k x acc, acc + Z.of_nat (String.length k)
                           + Z.of_nat (String.length x)) 0 v
  end.

(** Bytes an encoded value carries besides its payload (nonce,
    timestamp, authentication tag). *)
Definition overhead : Z := 48.

Definition wire_len (v : Wire) : Z :=
  match v with
  | Plain s => Z.of_nat (String.length s)
  | Sealed _ _ _ p => overhead + payload_len p
  end.

Definition too_long (sc : SC) (v : Wire) : Prop :=
  sc_MaxLength (sc_opts sc) ≠ 0 ∧ wire_len v > sc_MaxLength (sc_opts sc).

Definition expired (sc : SC) (ts t : Time) : Prop :=
  sc_MaxAge (sc_opts sc) ≠ 0 ∧ ts < t - sc_MaxAge (sc_opts sc) * Second.

(** The keys accepted when decoding: the active key, then the rotated
    keys. *)
Definition accepted (sc : SC) : list (list Z) :=
  sc_key sc :: sc_RotatedKeys (sc_opts sc).

#[global] Instance too_long_dec sc v : Decision (too_long sc v).
Proof. unfold too_long. apply _. Defined.
#[global] Instance expired_dec sc ts t : Decision (expired sc ts t).
Proof. unfold expired. apply _. Defined.

(** Modelled from the spec: [SecureCookie.Encode], absent from the
    repository.  New encodings use the active key only, and an oversized
    value is refused. *)
Definition seal (sc : SC) (name : string) (t : Time) (p : payload) : result Wire :=
  let v := Sealed (sc_key sc) name t p in
  if decide (too_long sc v) then Err "the value is too long" else Ok v.

(** Modelled from the spec: [SecureCookie.Decode], absent from the
    repository.  A value decodes when it was sealed for this cookie name
    under the active key or a rotated key, and is neither too long nor
    too old. *)
Definition open (sc : SC) (name : string) (t : Time) (v : Wire) : result payload :=
  if decide (too_long sc v) then Err "the value is too long" else
  match v with
  | Plain _ => Err "the value is not valid"
  | Sealed k n ts p =>
      if decide (k ∈ accepted sc ∧ n = name) then
        if decide (expired sc ts t) then Err "expired timestamp" else Ok p
      else Err "the value is not valid"
  end.

(** Modelled from the spec: the secure-cookie package as a whole.
    [securecookie.New] always yields an envelope; decoding into a
    destination of the wrong type fails. *)
#[global] Instance symbolic : SecureCookieLib := {|
  wire := Wire;
  wire_empty := Plain "";
  SecureCookie := SC;
  securecookie_New k o := Ok {| sc_key := k; sc_opts := o |};
  Encode := seal;
  Decode_string sc name t v :=
    match open sc name t v with
    | Ok (PString s) => Ok s
    | Ok (PValues _) => Err "type mismatch"
    | Err e => Err e
    end;
  Decode_values sc name t v :=
    match open sc name t v with
    | Ok (PValues m) => Ok m
    | Ok (PString _) => Err "type mismatch"
    | Err e => Err e
    end
|}.
End Envelope.

(** ** A concrete driver store, used to exercise the definitions *)
Module DriverExamples.
Import Driver.

(** A process at 2023-11-14T22:13:20Z with an empty database. *)
Definition w0 : World :=
  {| conn := {| tables := ∅; faults := [] |}; now := 1700000000 * Second |}.

Definition st : Store := (New w0).1.

(** After [New]: the [sessions] table exists and is empty. *)
Definition w1 : World := (New w0).2.

(** One session written at the current instant. *)
Definition w2 : World := (Write st "fresh" "payload" w1).2.

(** The same world with a connection whose next statement fails. *)
Definition w2_down : World :=
  {| conn := {| tables := tables (conn w2);
             faults := [Some "connection refused"%string] |};
     now := now w2 |}.

(** One second past the largest lifetime whose nanosecond count fits
    an [int64]. *)
Definition too_long : Z := 9223372037.
End DriverExamples.

(** ** A concrete cookie store over the modelled envelope *)
Module CookieExamples.
Import Cookie Envelope.

Definition key_a : list Z := [107; 101; 121; 45; 97].
Definition key_b : list Z := [107; 101; 121; 45; 98].
Definition key_c : list Z := [107; 101; 121; 45; 99].

(** A process at 2023-11-14T22:13:20Z with an empty database. *)
Definition w0 : World :=
  {| conn := {| tables := ∅; faults := [] |};
     now := 1700000000 * Second;
     entropy := λ i, Z.of_nat i * 37 + 11;
     drawn := 0;
     DefaultOptions := {| sc_MaxAge := 86400 * 30; sc_MaxLength := 4096;
                          sc_RotatedKeys := []; sc_Serializer := DefaultSerializer |} |}.

(** The value a call returned; [d] if it panicked. *)
Definition returned {A} (d : A) (o : outcome A) : A :=
  match o with
  | Ret a => a
  | Panic _ => d
  end.

Definition nil_store : Store :=
  {| opts := {| TableName := ""; SkipCreateTable := true |}; keys := [];
     secureCookie := None;
     SessionOpts := {| opt_Path := ""; opt_Domain := ""; opt_MaxAge := 0;
                       opt_Secure := false; opt_HttpOnly := false |} |}.

Definition st : Store := (returned (nil_store, w0) (New [key_a] w0)).1.
Definition w1 : World := (returned (nil_store, w0) (New [key_a] w0)).2.

Definition no_cookie : Request := {| Cookies := [] |}.

(** A new session that lives one minute. *)
Definition session0 : Session :=
  {| Session_ID := ""; Session_Values := {[ "user" := "alice" ]};
     Session_Options := {| opt_Path := "/"; opt_Domain := ""; opt_MaxAge := 60;
                           opt_Secure := false; opt_HttpOnly := true |};
     Session_IsNew := true; Session_name := "sid" |}.

Definition nothing_saved : Saved :=
  {| err := None; session' := session0; headers' := []; world' := w1 |}.

(** The first [Save] of [session0]: a row and a cookie. *)
Definition saved1 : Saved := returned nothing_saved (Save st no_cookie [] session0 w1).
Definition id1 : string := Session_ID (session' saved1).
Definition w2 : World := world' saved1.

(** The next request carries the cookie. *)
Definition with_cookie : Request := {| Cookies := headers' saved1 |}.


(** Two minutes later the row is expired and not yet purged. *)
Definition w2_late : World :=
  {| conn := conn w2; now := now w2 + 120 * Second; entropy := entropy w2;
     drawn := drawn w2; DefaultOptions := DefaultOptions w2 |}.

(** A store whose envelope refuses values longer than 60 bytes. *)
Definition st60 : Store := (returned (nil_store, w1) (MaxLength st 60 w1)).1.
Definition w1_60 : World := (returned (nil_store, w1) (MaxLength st 60 w1)).2.

Definition empty_session : Session :=
  {| Session_ID := ""; Session_Values := ∅;
     Session_Options := Session_Options session0;
     Session_IsNew := true; Session_name := "sid" |}.

(** Stores of the same database after a key rotation: [key_a] kept as
    a rotated key, and [key_a] dropped. *)
Definition st_rotated : Store :=
  (returned (nil_store, w2) (New [key_b; key_a] w2)).1.
Definition st_dropped : Store :=
  (returned (nil_store, w2) (New [key_b; key_c] w2)).1.

(** The envelope [New] built from [key_a]. *)
Definition sc_a : SC :=
  {| sc_key := key_a;
     sc_opts := {| sc_MaxAge := 0; sc_MaxLength := 0; sc_RotatedKeys := [];
                   sc_Serializer := GobEncoder |} |}.

(** The encoded values of [session0], its row and its cookie. *)
Definition data1 : Wire :=
  Sealed key_a "sid" (now w1) (PValues {[ "user" := "alice" ]}).

Definition row1 : Cols :=
  {| data := data1; created_at := now w1; updated_at := now w1;
     expires_at := now w1 + 60 * Second |}.

Definition cookie1 : http_Cookie :=
  NewCookie "sid" (Sealed key_a "sid" (now w1) (PString id1))
    (Session_Options session0).

(** The process after a lookup statement on [w2]. *)
Definition w3 : World := with_conn w2 (consume (conn w2)).
End CookieExamples.

(** ** More of the concrete cookie store *)
Module ExtraExamples.
Import Cookie Envelope CookieExamples.

(** The store and the process after [MaxAge] with the store's own
    max-age, as [Store.New] calls it. *)
Definition st_aged : Store :=
  (returned (nil_store, w2) (MaxAge st (opt_MaxAge (SessionOpts st)) w2)).1.
Definition w2_aged : World :=
  (returned (nil_store, w2) (MaxAge st (opt_MaxAge (SessionOpts st)) w2)).2.

(** The envelope of [st_aged]. *)
Definition sc_aged : SC :=
  {| sc_key := key_a;
     sc_opts := {| sc_MaxAge := defaultMaxAge; sc_MaxLength := 4096;
                   sc_RotatedKeys := []; sc_Serializer := GobEncoder |} |}.

(** A table whose row under [id1] holds data no envelope made. *)
Definition bad_row : Cols :=
  {| data := Plain "garbage"; created_at := now w1; updated_at := now w1;
     expires_at := now w1 + 60 * Second |}.

Definition w_bad : World :=
  with_conn w2
    {| tables := {[ "sessions"%string := {[ id1 := bad_row ]} ]}; faults := [] |}.

(** A session whose values do not fit a 60-byte envelope. *)
Definition long_session : Session :=
  {| Session_ID := ""; Session_Values := {[ "user" := "alice-the-great" ]};
     Session_Options := Session_Options session0;
     Session_IsNew := true; Session_name := "sid" |}.

(** [w1] with a connection whose next statement fails. *)
Definition w1_down : World :=
  with_conn w1 {| tables := tables (conn w1);
                  faults := [Some "connection refused"%string] |}.

(** A new session with max-age 0, and its [Save]. *)
Definition session_zero : Session :=
  {| Session_ID := ""; Session_Values := ∅;
     Session_Options := {| opt_Path := "/"; opt_Domain := ""; opt_MaxAge := 0;
                           opt_Secure := false; opt_HttpOnly := true |};
     Session_IsNew := true; Session_name := "sid" |}.

Definition saved_zero : Saved :=
  returned nothing_saved (Save st no_cookie [] session_zero w1).

(** What [Store.New] answers to the request carrying the cookie. *)
Definition loaded : Session * Store * World :=
  returned (session0, nil_store, w2) (Store_New st with_cookie "sid" w2).

(** [w2] with a connection that fails the next statement only, and the
    [Save] of the session on it. *)
Definition w2_lookup_down : World :=
  with_conn w2 {| tables := tables (conn w2);
                  faults := [Some "connection refused"%string] |}.

Definition forked : Saved :=
  returned nothing_saved (Save st with_cookie [] session0 w2_lookup_down).

(** The 32 bytes [Save] drew for [id1]. *)
Definition rnd1 : list Z := (GenerateRandomKey sessionIDLen w1).1.
End ExtraExamples.

(** ** Reading a base-32 string back

    The 5-bit groups behind the characters of an encoding, used to show
    that the encoding loses nothing. *)
Module base32_groups.
Import base32.

(** A group as it indexes the alphabet. *)
Definition mask (g : Z) : Z := Z.land g 31.

(** The groups of an input that carry input bits, in order. *)
Fixpoint groups (src : list Z) : list Z :=
  match src with
  | [] => []
  | [s0] => take 2 (quantum s0 0 0 0 0)
  | [s0; s1] => take 4 (quantum s0 s1 0 0 0)
  | [s0; s1; s2] => take 5 (quantum s0 s1 s2 0 0)
  | [s0; s1; s2; s3] => take 7 (quantum s0 s1 s2 s3 0)
  | s0 :: s1 :: s2 :: s3 :: s4 :: rest => quantum s0 s1 s2 s3 s4 ++ groups rest
  end.

(** The position of a character in the alphabet. *)
Fixpoint index_of (c : ascii) (l : list ascii) : Z :=
  match l with
  | [] => 0
  | x :: l' => if decide (x = c) then 0 else 1 + index_of c l'
  end.

Definition dec_char (c : ascii) : Z := index_of c encodeStd.

(** The 256 byte values, and exhaustive checks over one or two bytes. *)
Definition all_bytes : list Z := map Z.of_nat (seq 0 256).

Definition check1 (P : Z → bool) : bool := forallb P all_bytes.

Definition check2 (P : Z → Z → bool) : bool :=
  forallb (λ a, forallb (P a) all_bytes) all_bytes.
(** The groups of a quantum, each a function of at most two bytes. *)
Definition g0 (s0 : Z) : Z := mask (Z.shiftr s0 3).
Definition g1 (s0 s1 : Z) : Z :=
  mask (Z.lor (Z.land (Z.shiftr s1 6) 31) (Z.land (Z.shiftl s0 2) 31)).
Definition g2 (s1 : Z) : Z := mask (Z.land (Z.shiftr s1 1) 31).
Definition g3 (s1 s2 : Z) : Z :=
  mask (Z.lor (Z.land (Z.shiftr s2 4) 31) (Z.land (Z.shiftl s1 4) 31)).
Definition g4 (s2 s3 : Z) : Z :=
  mask (Z.lor (Z.shiftr s3 7) (Z.land (Z.shiftl s2 1) 31)).
Definition g5 (s3 : Z) : Z := mask (Z.land (Z.shiftr s3 2) 31).
Definition g6 (s3 s4 : Z) : Z :=
  mask (Z.lor (Z.shiftr s4 5) (Z.land (Z.shiftl s3 3) 31)).
Definition g7 (s4 : Z) : Z := mask (Z.land s4 31).

End base32_groups.
(** ** Facts about the relational store *)
Section GormFacts.
Context {Cols : Type}.
Implicit Types (db : DB Cols) (tn id : string).

Lemma exec_fst tn f db : (exec tn f db).1 = stmt_error tn db.
Proof. unfold exec. by destruct (stmt_error tn db). Qed.

Lemma rows_of_exec_ok tn f db :
  stmt_error tn db = None → rows_of tn (exec tn f db).2 = f (rows_of tn db).
Proof.
  intros H. unfold exec. rewrite H. unfold rows_of at 1. simpl.
  by rewrite lookup_insert_eq.
Qed.

Lemma rows_of_consume tn db : rows_of tn (consume db) = rows_of tn db.
Proof. done. Qed.

Lemma rows_of_exec_err tn f db e :
  stmt_error tn db = Some e → rows_of tn (exec tn f db).2 = rows_of tn db.
Proof. intros H. unfold exec. by rewrite H. Qed.

Lemma faults_exec tn f db : faults (exec tn f db).2 = tail (faults db).
Proof. unfold exec. by destruct (stmt_error tn db). Qed.

Lemma tx_Find_err tn id (P : Cols → Prop) `{!∀ c, Decision (P c)} db e :
  stmt_error tn db = Some e → (tx_Find tn id P db).1 = (Some e, None).
Proof. intros Herr. unfold tx_Find. by rewrite Herr. Qed.

Lemma tx_Find_ok tn id (P : Cols → Prop) `{!∀ c, Decision (P c)} db :
  stmt_error tn db = None →
  (tx_Find tn id P db).1
  = (None, match rows_of tn db !! id with
           | Some c => if decide (P c) then Some c else None
           | None => None
           end).
Proof. intros Herr. unfold tx_Find. by rewrite Herr. Qed.

Lemma rows_of_tx_Find tn id (P : Cols → Prop) `{!∀ c, Decision (P c)} db :
  rows_of tn (tx_Find tn id P db).2 = rows_of tn db.
Proof. unfold tx_Find. by destruct (stmt_error tn db). Qed.
End GormFacts.

(** ** Facts about base32 and trimming *)
(** RFC 4648 test vectors. *)
Example base32_f : base32.EncodeToString [102] = "MY======"%string.
Proof. reflexivity. Qed.
Example base32_fo : base32.EncodeToString [102; 111] = "MZXQ===="%string.
Proof. reflexivity. Qed.
Example base32_foo : base32.EncodeToString [102; 111; 111] = "MZXW6==="%string.
Proof. reflexivity. Qed.
Example base32_foob : base32.EncodeToString [102; 111; 111; 98] = "MZXW6YQ="%string.
Proof. reflexivity. Qed.
Example base32_fooba : base32.EncodeToString [102; 111; 111; 98; 97] = "MZXW6YTB"%string.
Proof. reflexivity. Qed.
Example base32_foobar :
  base32.EncodeToString [102; 111; 111; 98; 97; 114] = "MZXW6YTBOI======"%string.
Proof. reflexivity. Qed.
Example TrimRight_foobar : TrimRight "MZXW6YTBOI======" "="%char = "MZXW6YTBOI"%string.
Proof. reflexivity. Qed.
Example TrimRight_inner : TrimRight "A=B==" "="%char = "A=B"%string.
Proof. reflexivity. Qed.

Section Base32Facts.
Import base32.

Lemma enc_char_in b : In (enc_char b) encodeStd.
Proof.
  unfold enc_char. apply nth_In.
  change (length encodeStd) with 32%nat.
  change 31 with (Z.ones 5). rewrite Z.land_ones by lia.
  pose proof (Z.mod_pos_bound b (2 ^ 5)). lia.
Qed.

Lemma pad_not_in_alphabet : ¬ In StdPadding encodeStd.
Proof. vm_compute. intuition discriminate. Qed.

Lemma enc_char_not_pad b : enc_char b ≠ StdPadding.
Proof. intros Heq. apply pad_not_in_alphabet. rewrite <- Heq. apply enc_char_in. Qed.

Lemma trim_right_chars_cons_ne c x l :
  x ≠ c → trim_right_chars c (x :: l) = x :: trim_right_chars c l.
Proof.
  intros Hne. simpl. destruct (trim_right_chars c l); [| done].
  by destruct (decide (x = c)).
Qed.

Lemma length_string_of_list_ascii (l : list ascii) :
  String.length (String.string_of_list_ascii l) = length l.
Proof. induction l as [|x l IH]; simpl; congruence. Qed.

(** The ID made from 32 bytes: the 52 characters that carry the 256
    bits, all of the base-32 alphabet; the four padding characters are
    gone. *)
Lemma newSessionID_shape (rnd : list Z) :
  length rnd = 32%nat →
  String.length (Cookie.newSessionID rnd) = 52%nat
  ∧ Forall (λ ch, In ch encodeStd)
      (String.list_ascii_of_string (Cookie.newSessionID rnd)).
Proof.
  intros Hlen.
  do 32 (destruct rnd as [|? rnd]; [discriminate Hlen |]).
  destruct rnd; [| discriminate Hlen]. clear Hlen.
  unfold Cookie.newSessionID, TrimRight, EncodeToString.
  rewrite !String.list_ascii_of_string_of_list_ascii.
  cbn [Encode quantum_chars quantum take map replicate app Nat.sub].
  rewrite !trim_right_chars_cons_ne by apply enc_char_not_pad.
  change (trim_right_chars "=" (replicate 4 StdPadding)) with (@nil ascii).
  split.
  - by rewrite length_string_of_list_ascii.
  - repeat (constructor; [apply enc_char_in |]). constructor.
Qed.
End Base32Facts.

(** ** The driver variant: properties *)
Module DriverProofs.
Import Driver.

Implicit Types (st : Store) (w : World) (id : string).

Lemma Write_fst st id p w : (Write st id p w).1 = store_error st w.
Proof. apply exec_fst. Qed.

Lemma Destroy_fst st id w : (Destroy st id w).1 = store_error st w.
Proof. apply exec_fst. Qed.

Lemma Gc_fst st m w : (Gc st m w).1 = store_error st w.
Proof. apply exec_fst. Qed.

Lemma records_Write st id p w :
  store_error st w = None →
  records st (Write st id p w).2
  = match records st w !! id with
    | Some c => <[id := {| data := p; created_at := created_at c;
                           updated_at := now w |}]> (records st w)
    | None => <[id := {| data := p; created_at := now w;
                         updated_at := now w |}]> (records st w)
    end.
Proof. intros Hok. unfold records, Write, tx_Save. simpl. by rewrite rows_of_exec_ok. Qed.

Lemma records_Destroy st id w :
  store_error st w = None →
  records st (Destroy st id w).2 = filter (λ kv, ¬ kv.1 = id) (records st w).
Proof.
  intros Hok. unfold records, Destroy, tx_Delete. simpl.
  by rewrite rows_of_exec_ok.
Qed.

Lemma records_Gc st m w :
  store_error st w = None →
  records st (Gc st m w).2
  = filter (λ kv, ¬ updated_at kv.2 < gc_cutoff m (now w)) (records st w).
Proof.
  intros Hok. unfold records, Gc, tx_Delete. simpl.
  by rewrite rows_of_exec_ok.
Qed.

(** [Read] on a store whose lookup statement runs: the stored payload,
    or the empty string when there is no row. *)
Lemma Read_ok st id w :
  store_error st w = None →
  (Read st id w).1 = (from_option data "" (records st w !! id), None).
Proof.
  intros Hok. unfold Read, getSessionByID.
  rewrite (tx_Find_ok (sessionTable st) id (λ _, True) (conn w) Hok).
  simpl. unfold records.
  by destruct (rows_of (sessionTable st) (conn w) !! id).
Qed.

Lemma Read_err st id w e :
  store_error st w = Some e → (Read st id w).1 = ("", None).
Proof.
  intros Herr. unfold Read, getSessionByID.
  by rewrite (tx_Find_err (sessionTable st) id (λ _, True) (conn w) e Herr).
Qed.


(** C7. Idempotent delete: on a store that runs the statement,
    [Destroy(K)] returns nil whether or not a row [K] exists, no row
    [K] remains afterwards, and the other rows are untouched (so
    destroying an absent [K] changes nothing). *)
Theorem Destroy_idempotent st (K : string) w :
  store_error st w = None →
  (Destroy st K w).1 = None
  ∧ records st (Destroy st K w).2 !! K = None
  ∧ (∀ id, id ≠ K → records st (Destroy st K w).2 !! id = records st w !! id)
  ∧ (records st w !! K = None → records st (Destroy st K w).2 = records st w).
Proof.
  intros Hok. rewrite Destroy_fst, (records_Destroy _ _ _ Hok).
  assert (Hother : ∀ id, id ≠ K →
    filter (λ kv : string * Cols, ¬ kv.1 = K) (records st w) !! id
    = records st w !! id).
  { intros id Hne. apply option_eq. intros c.
    rewrite map_lookup_filter_Some. simpl. tauto. }
  assert (Hgone :
    filter (λ kv : string * Cols, ¬ kv.1 = K) (records st w) !! K = None).
  { apply map_lookup_filter_None. right. intros c _. simpl. tauto. }
  repeat split; [done | done | done |].
  intros Habs. apply map_eq. intros id.
  destruct (decide (id = K)) as [-> | Hne]; [by rewrite Hgone | by apply Hother].
Qed.

(** C8. Fail-soft reads, fail-loud writes: [Read] answers the empty
    payload with a nil error both when the row is absent and when the
    store reports an error [e]; on that same failing store [Write],
    [Destroy] and [Gc] return exactly [e]. *)
Theorem reads_fail_soft_writes_fail_loud st id w :
  (records st w !! id = None → (Read st id w).1 = ("", None))
  ∧ (∀ e, store_error st w = Some e →
       (Read st id w).1 = ("", None)
       ∧ (∀ p, (Write st id p w).1 = Some e)
       ∧ (Destroy st id w).1 = Some e
       ∧ (∀ m, (Gc st m w).1 = Some e)).
Proof.
  split.
  - intros Habs. destruct (store_error st w) as [e|] eqn:E.
    + by apply (Read_err _ _ _ e).
    + by rewrite (Read_ok _ _ _ E), Habs.
  - intros e Herr. split; [by apply (Read_err _ _ _ e) |].
    split; [intros p; by rewrite Write_fst |].
    split; [by rewrite Destroy_fst | intros m; by rewrite Gc_fst].
Qed.

Lemma wrap64_small z : minInt64 ≤ z ≤ maxInt64 → wrap64 z = z.
Proof.
  unfold minInt64, maxInt64, wrap64. intros Hz.
  rewrite Z.mod_small; lia.
Qed.

(** Within the lifetimes a [time.Duration] can hold, the cutoff is the
    instant [maxLifetime] seconds ago. *)
Lemma gc_cutoff_in_range m t :
  -9223372036 ≤ m ≤ 9223372036 → gc_cutoff m t = t - m * Second.
Proof.
  intros Hm. unfold gc_cutoff, Time_Add, Second.
  rewrite (wrap64_small m) by (unfold minInt64, maxInt64; lia).
  rewrite (wrap64_small (- m)) by (unfold minInt64, maxInt64; lia).
  rewrite wrap64_small by (unfold minInt64, maxInt64; lia).
  lia.
Qed.

(** C3, as amended.  For every [maxLifetime] between -9223372036 and
    9223372036 seconds (the lifetimes whose nanosecond count fits the
    [int64] of [time.Duration]), a [Gc(maxLifetime)] that the store runs
    returns nil and deletes exactly the rows whose [updated_at] is
    before [now - maxLifetime] seconds: a row updated one second before
    that instant is removed, a row updated one second after it survives.
    [Read] does not look at the age of a row: it returns the payload of
    any stored row. *)
Theorem Gc_relative_expiry st (maxLifetime : Z) w :
  -9223372036 ≤ maxLifetime ≤ 9223372036 →
  store_error st w = None →
  (Gc st maxLifetime w).1 = None
  ∧ (∀ id c, records st (Gc st maxLifetime w).2 !! id = Some c
             ↔ records st w !! id = Some c
               ∧ ¬ updated_at c < now w - maxLifetime * Second)
  ∧ (∀ id c, records st w !! id = Some c →
             updated_at c = now w - maxLifetime * Second - 1 * Second →
             records st (Gc st maxLifetime w).2 !! id = None)
  ∧ (∀ id c, records st w !! id = Some c →
             updated_at c = now w - maxLifetime * Second + 1 * Second →
             records st (Gc st maxLifetime w).2 !! id = Some c)
  ∧ (∀ id c, records st w !! id = Some c →
             (Read st id w).1 = (data c, None)).
Proof.
  intros Hm Hok. rewrite Gc_fst, (records_Gc _ _ _ Hok), (gc_cutoff_in_range _ _ Hm).
  assert (Hexact : ∀ id c,
    filter (λ kv : string * Cols, ¬ updated_at kv.2 < now w - maxLifetime * Second)
      (records st w) !! id = Some c
    ↔ records st w !! id = Some c
      ∧ ¬ updated_at c < now w - maxLifetime * Second).
  { intros id c. by rewrite map_lookup_filter_Some. }
  split; [done |]. split; [done |]. split; [| split].
  - intros id c Hin Hold. apply map_lookup_filter_None. right.
    intros c' Hc'. simpl. rewrite Hin in Hc'. injection Hc' as <-.
    unfold Second in *. lia.
  - intros id c Hin Hyoung. apply Hexact. split; [done |].
    unfold Second in *. lia.
  - intros id c Hin. by rewrite (Read_ok _ _ _ Hok), Hin.
Qed.

(** C3, as stated, fails: with [maxLifetime = 9223372037] the duration
    wraps around to a positive number of nanoseconds, the cutoff lands
    in the future, and [Gc] deletes a row written at the current
    instant, which is not older than [now - maxLifetime] seconds. *)
Lemma Gc_overflow_deletes_fresh_row :
  minInt64 ≤ DriverExamples.too_long ≤ maxInt64
  ∧ store_error DriverExamples.st DriverExamples.w2 = None
  ∧ records DriverExamples.st DriverExamples.w2 !! "fresh"%string
    = Some {| data := "payload"; created_at := now DriverExamples.w2;
              updated_at := now DriverExamples.w2 |}
  ∧ ¬ (now DriverExamples.w2
       < now DriverExamples.w2 - DriverExamples.too_long * Second)
  ∧ (Gc DriverExamples.st DriverExamples.too_long DriverExamples.w2).1 = None
  ∧ records DriverExamples.st
      (Gc DriverExamples.st DriverExamples.too_long DriverExamples.w2).2
    !! "fresh"%string = None.
Proof.
  split; [by vm_compute |]. split; [by vm_compute |].
  split; [by vm_compute |]. split; [by vm_compute |].
  split; by vm_compute.
Qed.

Lemma Gc_relative_expiry_witness :
  (Gc DriverExamples.st 3600 DriverExamples.w2).1 = None
  ∧ records DriverExamples.st (Gc DriverExamples.st 3600 DriverExamples.w2).2
    !! "fresh"%string
    = Some {| data := "payload"; created_at := 1700000000 * Second;
              updated_at := 1700000000 * Second |}.
Proof.
  assert (Hm : -9223372036 ≤ 3600 ≤ 9223372036) by lia.
  assert (Hok : store_error DriverExamples.st DriverExamples.w2 = None)
    by (vm_compute; reflexivity).
  destruct (Gc_relative_expiry DriverExamples.st 3600 DriverExamples.w2 Hm Hok)
    as (Hnil & Hexact & _).
  split; [exact Hnil |].
  apply Hexact. split; [vm_compute; reflexivity | vm_compute; discriminate].
Defined.


Lemma Destroy_idempotent_witness :
  (Destroy DriverExamples.st "absent" DriverExamples.w2).1 = None
  ∧ records DriverExamples.st
      (Destroy DriverExamples.st "absent" DriverExamples.w2).2
    = records DriverExamples.st DriverExamples.w2.
Proof.
  assert (Hok : store_error DriverExamples.st DriverExamples.w2 = None)
    by (vm_compute; reflexivity).
  destruct (Destroy_idempotent DriverExamples.st "absent" DriverExamples.w2 Hok)
    as (Hnil & _ & _ & Hsame).
  split; [exact Hnil |]. apply Hsame. vm_compute. reflexivity.
Defined.

Lemma reads_fail_soft_writes_fail_loud_witness :
  (Read DriverExamples.st "absent" DriverExamples.w2).1 = (""%string, None)
  ∧ (Read DriverExamples.st "fresh" DriverExamples.w2_down).1 = (""%string, None)
  ∧ (Write DriverExamples.st "fresh" "p" DriverExamples.w2_down).1
    = Some "connection refused"%string
  ∧ (Destroy DriverExamples.st "fresh" DriverExamples.w2_down).1
    = Some "connection refused"%string
  ∧ (Gc DriverExamples.st 60 DriverExamples.w2_down).1
    = Some "connection refused"%string.
Proof.
  split.
  - apply (reads_fail_soft_writes_fail_loud DriverExamples.st "absent"
             DriverExamples.w2).
    vm_compute. reflexivity.
  - destruct (reads_fail_soft_writes_fail_loud DriverExamples.st "fresh"
                DriverExamples.w2_down) as [_ Hloud].
    assert (Herr : store_error DriverExamples.st DriverExamples.w2_down
                   = Some "connection refused"%string)
      by (vm_compute; reflexivity).
    destruct (Hloud _ Herr) as (HR & HW & HD & HG).
    split; [exact HR |]. split; [exact (HW "p"%string) |].
    split; [exact HD | exact (HG 60)].
Defined.

Example w2_has_fresh :
  records DriverExamples.st DriverExamples.w2 !! "fresh"%string
  = Some {| data := "payload"; created_at := 1700000000 * Second;
            updated_at := 1700000000 * Second |}.
Proof. vm_compute. reflexivity. Qed.

End DriverProofs.

(** ** The self-contained variant: properties that hold for any envelope *)
Module CookieProofs.
Import Cookie.

Section AnyEnvelope.
Context `{lib : SecureCookieLib}.
Implicit Types (st : Store) (w : World) (r : Request) (rw : list http_Cookie)
  (session : Session) (id name : string).

Lemma records_with_conn st w d :
  records st (with_conn w d) = rows_of (sessionTable st) d.
Proof. done. Qed.

(** What a lookup that returns can have done: it changed no row and
    left clock, random source and package options alone; a session
    it found is a stored row that is not expired. *)
Lemma getSessionFromCookie_inv st r name w s w1 :
  getSessionFromCookie st r name w = Ret (s, w1) →
  records st w1 = records st w
  ∧ now w1 = now w
  ∧ entropy w1 = entropy w ∧ drawn w1 = drawn w
  ∧ ∀ s', s = Some s' →
      records st w !! ID s' = Some (to_row s') ∧ expires_at (to_row s') > now w.
Proof.
  unfold getSessionFromCookie.
  destruct (Request_Cookie r name) as [cookie|]; simpl.
  - destruct (secureCookie st) as [sc|]; simpl; [| discriminate].
    destruct (Decode_string sc name (now w) (Cookie_Value cookie)) as [sid|e].
    + unfold tx_Find, records.
      destruct (stmt_error (sessionTable st) (conn w)) eqn:E; simpl.
      * intros [= <- <-]. by split_and!.
      * destruct (rows_of (sessionTable st) (conn w) !! sid) as [c|] eqn:Hc;
          [destruct (decide (expires_at c > now w)) |];
          intros [= <- <-]; split_and!; try done.
        intros s' [= <-]. simpl. rewrite Hc. by destruct c.
    + intros [= <- <-]. by split_and!.
  - intros [= <- <-]. by split_and!.
Qed.

(** C4. Construction without a key panics, for every connection and
    every options; with at least one key [NewOptions] and [New]
    return a store holding exactly those keys, whatever the envelope
    constructor answered. *)
Theorem construction_requires_a_key (o : Options) w :
  NewOptions o [] w = Panic "key required"
  ∧ New [] w = Panic "key required"
  ∧ (∀ k ks, ∃ st w', NewOptions o (k :: ks) w = Ret (st, w')
                      ∧ keys st = k :: ks)
  ∧ (∀ k ks, ∃ st w', New (k :: ks) w = Ret (st, w') ∧ keys st = k :: ks).
Proof.
  split; [done |]. split; [done |].
  assert (Hgen : ∀ o' k ks, ∃ st w',
            NewOptions o' (k :: ks) w = Ret (st, w') ∧ keys st = k :: ks).
  { intros o' k ks. unfold NewOptions. simpl.
    destruct (decide (TableName o' = "")); simpl;
      destruct (SkipCreateTable o'); simpl; eauto. }
  split; [apply Hgen | intros k ks; apply Hgen].
Qed.


Lemma records_Cleanup_ok st w :
  store_error st w = None →
  records st (Cleanup st w)
  = filter (λ kv, ¬ expires_at kv.2 ≤ now w) (records st w).
Proof.
  intros Hok. unfold Cleanup, tx_Delete.
  by rewrite records_with_conn, rows_of_exec_ok.
Qed.

Lemma records_Cleanup_err st w e :
  store_error st w = Some e → records st (Cleanup st w) = records st w.
Proof.
  intros Herr. unfold Cleanup, tx_Delete.
  by rewrite records_with_conn, (rows_of_exec_err _ _ _ e).
Qed.

(** A cookie naming a row that is expired, or that does not exist,
    finds no session. *)
Lemma lookup_dead st r name w sc cookie id :
  Request_Cookie r name = Some cookie →
  secureCookie st = Some sc →
  Decode_string sc name (now w) (Cookie_Value cookie) = Ok id →
  from_option (λ c, expires_at c ≤ now w) True (records st w !! id) →
  ∃ w1, getSessionFromCookie st r name w = Ret (None, w1).
Proof.
  intros Hcookie Hsc Hdec Hdead. unfold getSessionFromCookie.
  rewrite Hcookie, Hsc. simpl. rewrite Hdec. unfold tx_Find.
  destruct (stmt_error (sessionTable st) (conn w)); simpl; [by eexists |].
  unfold records in Hdead.
  destruct (rows_of (sessionTable st) (conn w) !! id) as [c|]; [| by eexists].
  simpl in Hdead. destruct (decide (expires_at c > now w)); [lia | by eexists].
Qed.

Lemma MaxAge_inv st age w st1 w0 :
  MaxAge st age w = Ret (st1, w0) →
  opts st1 = opts st ∧ keys st1 = keys st
  ∧ conn w0 = conn w ∧ now w0 = now w
  ∧ entropy w0 = entropy w ∧ drawn w0 = drawn w.
Proof.
  unfold MaxAge. destruct (keys st) as [|k0 rot] eqn:Hk; [done |].
  intros [= <- <-]. by split_and!.
Qed.

(** C2. Absolute expiry.  Let [c] be a stored row with
    [expires_at c ≤ now].  No lookup returns it; a request whose
    cookie decodes to its ID finds no session, and [Store.New] then
    answers the fresh session ([IsNew], no ID, no values), all this
    before any cleanup.  A [Cleanup] whose statement the store runs
    deletes the row.  Rows with [expires_at > now] are still there
    after [Cleanup], unchanged. *)
Theorem absolute_expiry st w id (c : Cols) :
  records st w !! id = Some c →
  expires_at c ≤ now w →
  (∀ r name s w1, getSessionFromCookie st r name w = Ret (Some s, w1) →
                  ID s ≠ id)
  ∧ (∀ r name sc cookie,
       Request_Cookie r name = Some cookie →
       secureCookie st = Some sc →
       Decode_string sc name (now w) (Cookie_Value cookie) = Ok id →
       ∃ w1, getSessionFromCookie st r name w = Ret (None, w1))
  ∧ (∀ r name st1 w0 sc cookie,
       MaxAge st (opt_MaxAge (SessionOpts st)) w = Ret (st1, w0) →
       Request_Cookie r name = Some cookie →
       secureCookie st1 = Some sc →
       Decode_string sc name (now w) (Cookie_Value cookie) = Ok id →
       ∃ w1, Store_New st r name w = Ret (fresh_session st name, st1, w1))
  ∧ (store_error st w = None → records st (Cleanup st w) !! id = None)
  ∧ (∀ id' c', records st w !! id' = Some c' → expires_at c' > now w →
               records st (Cleanup st w) !! id' = Some c').
Proof.
  intros Hrow Hexp. split_and!.
  - intros r name s w1 Hlook Heq.
    destruct (getSessionFromCookie_inv _ _ _ _ _ _ Hlook) as (_ & _ & _ & _ & Hs).
    destruct (Hs s eq_refl) as [Hin Hlive].
    rewrite Heq, Hrow in Hin. injection Hin as ->. lia.
  - intros r name sc cookie Hcookie Hsc Hdec.
    apply (lookup_dead st r name w sc cookie id); try done. by rewrite Hrow.
  - intros r name st1 w0 sc cookie HM Hcookie Hsc Hdec.
    destruct (MaxAge_inv _ _ _ _ _ HM) as (Hopts & _ & Hconn & Hnow & _).
    destruct (lookup_dead st1 r name w0 sc cookie id) as [w1 Hlook]; try done.
    + by rewrite Hnow.
    + unfold records, sessionTable. rewrite Hopts, Hconn.
      fold (sessionTable st). fold (records st w). rewrite Hrow. simpl. lia.
    + exists w1. unfold Store_New. rewrite HM. simpl. by rewrite Hlook.
  - intros Hok. rewrite (records_Cleanup_ok _ _ Hok).
    apply map_lookup_filter_None. right. intros c' Hc'. simpl.
    rewrite Hrow in Hc'. injection Hc' as <-. tauto.
  - intros id' c' Hin Hlive.
    destruct (store_error st w) as [e|] eqn:E.
    + by rewrite (records_Cleanup_err _ _ e E).
    + rewrite (records_Cleanup_ok _ _ E). apply map_lookup_filter_Some.
      split; [done |]. simpl. lia.
Qed.

Lemma GenerateRandomKey_length n w : length (GenerateRandomKey n w).1 = n.
Proof. simpl. by rewrite length_map, length_seq. Qed.

Lemma GenerateRandomKey_bytes n w :
  Forall (λ b, 0 ≤ b < 256) (GenerateRandomKey n w).1.
Proof.
  simpl. apply Forall_forall. intros b Hb.
  apply list_elem_of_In, in_map_iff in Hb as (i & <- & _).
  apply Z.mod_pos_bound. lia.
Qed.

Lemma GenerateRandomKey_world n w :
  (GenerateRandomKey n w).2
  = {| conn := conn w; now := now w; entropy := entropy w;
       drawn := (drawn w + n)%nat; DefaultOptions := DefaultOptions w |}.
Proof. done. Qed.

Lemma faults_tx_Create tn id (c : Cols) (d : DB Cols) :
  faults (tx_Create tn id c d).2 = tail (faults d).
Proof.
  unfold tx_Create. destruct (stmt_error tn d) eqn:E; [done |].
  destruct (rows_of tn d !! id); [done |]. by rewrite faults_exec.
Qed.

Lemma newSessionID_unfold rnd :
  newSessionID rnd = TrimRight (base32.EncodeToString rnd) "="%char.
Proof. done. Qed.

#[local] Opaque GenerateRandomKey newSessionID.

(** C9. Session ID generation.  When the lookup finds no row, the
    max-age is not negative and the values encode, [Save] returns and
    the session ID it sets is [TrimRight(base32(rnd), "=")] for the
    next 32 bytes [rnd] of the random source: always 52 characters of
    the base-32 alphabet.  The ID depends on nothing else, and the one
    statement [Save] issues after the lookup is the insert: if [id] is
    already a row, the table refuses the insert, [Save] returns that
    error, the old row stays and no header is written; if it is not,
    the new row is stored under [id]. *)
Theorem session_id_generation st r rw session w w1 sc (data' : wire) :
  getSessionFromCookie st r (Session_name session) w = Ret (None, w1) →
  ¬ opt_MaxAge (Session_Options session) < 0 →
  secureCookie st = Some sc →
  Encode sc (Session_name session) (now w1)
    (PValues (Session_Values session)) = Ok data' →
  ∃ out, Save st r rw session w = Ret out
    ∧ let rnd := (GenerateRandomKey sessionIDLen w1).1 in
      let id := Session_ID (session' out) in
      length rnd = 32%nat
      ∧ Forall (λ b, 0 ≤ b < 256) rnd
      ∧ drawn (world' out) = (drawn w + 32)%nat
      ∧ id = TrimRight (base32.EncodeToString rnd) "="%char
      ∧ String.length id = 52%nat
      ∧ Forall (λ ch, In ch base32.encodeStd) (String.list_ascii_of_string id)
      ∧ faults (conn (world' out)) = tail (faults (conn w1))
      ∧ (store_error st w1 = None →
         match records st w !! id with
         | Some c =>
             err out = Some "duplicated key not allowed"%string
             ∧ records st (world' out) = records st w
             ∧ headers' out = rw
         | None =>
             records st (world' out) !! id
             = Some {| data := data'; created_at := now w; updated_at := now w;
                       expires_at :=
                         Time_Add (now w)
                           (wrap64 (Second * opt_MaxAge (Session_Options session))) |}
         end).
Proof.
  intros Hlook Hage Hsc Henc.
  destruct (getSessionFromCookie_inv _ _ _ _ _ _ Hlook)
    as (Hrec & Hnow & _ & Hdrawn & _).
  pose proof (newSessionID_shape (GenerateRandomKey sessionIDLen w1).1
                (GenerateRandomKey_length _ _)) as [Hlen Halpha].
  pose proof (GenerateRandomKey_length sessionIDLen w1) as Hrlen.
  pose proof (GenerateRandomKey_bytes sessionIDLen w1) as Hbytes.
  pose proof (GenerateRandomKey_world sessionIDLen w1) as Hw2.
  unfold Save. rewrite Hlook. simpl.
  destruct (decide (opt_MaxAge (Session_Options session) < 0)); [done |].
  rewrite Hsc. simpl. rewrite Henc.
  destruct (GenerateRandomKey sessionIDLen w1) as [rnd w2]. simpl in *. subst w2.
  pose proof (newSessionID_unfold rnd) as Hid.
  set (id := newSessionID rnd) in *.
  set (row := to_row {| ID := id; Data := data'; CreatedAt := now w1;
                        UpdatedAt := now w1;
                        ExpiresAt := Time_Add (now w1)
                          (wrap64 (Second * opt_MaxAge (Session_Options session))) |}).
  pose proof (faults_tx_Create (sessionTable st) id row (conn w1)) as Hfaults.
  assert (Hrows : store_error st w1 = None →
    match records st w !! id with
    | Some c =>
        (tx_Create (sessionTable st) id row (conn w1)).1
        = Some "duplicated key not allowed"%string
        ∧ rows_of (sessionTable st) (tx_Create (sessionTable st) id row (conn w1)).2
          = records st w
    | None =>
        (tx_Create (sessionTable st) id row (conn w1)).1 = None
        ∧ rows_of (sessionTable st) (tx_Create (sessionTable st) id row (conn w1)).2
          !! id = Some row
    end).
  { intros Hok. unfold tx_Create. fold (store_error st w1). rewrite Hok.
    fold (records st w1). rewrite Hrec.
    destruct (records st w !! id) as [c|]; simpl.
    - by rewrite rows_of_consume.
    - rewrite exec_fst, (rows_of_exec_ok _ _ _ Hok), lookup_insert_eq.
      by fold (store_error st w1). }
  clearbody id.
  destruct (tx_Create (sessionTable st) id row (conn w1)) as [[e|] d] eqn:Etx;
    simpl in *; rewrite ?Etx; simpl.
  - eexists. split; [done |]. simpl. split_and!; try done.
    + by rewrite Hdrawn.
    + intros Hok. specialize (Hrows Hok).
      destruct (records st w !! id) as [c|]; [| by destruct Hrows].
      destruct Hrows as [[= <-] Hd]. by rewrite records_with_conn.
  - destruct (Encode sc (Session_name session) (now w1) (PString id)) as [v|e];
      (eexists; split; [done |]); simpl;
      (split_and!; try done; [by rewrite Hdrawn |]);
      intros Hok; specialize (Hrows Hok);
      (destruct (records st w !! id) as [c|]; [by destruct Hrows |]);
      destruct Hrows as [_ Hd]; rewrite records_with_conn, Hd;
      subst row; unfold to_row; simpl; by rewrite Hnow.
Qed.

(** C10. [Save] is not atomic with respect to the cookie.  Suppose
    the max-age is not negative, the values encode, and the store
    runs the write (an update of the row the lookup found, or the
    insert of a row under a new, unused ID).  If encoding the
    session ID then fails with [e], [Save] returns [e] and writes no
    [Set-Cookie] header, and the row written stays in the table. *)
Theorem Save_not_atomic st r rw session w s w1 sc (data' : wire) (e : error) :
  getSessionFromCookie st r (Session_name session) w = Ret (s, w1) →
  ¬ opt_MaxAge (Session_Options session) < 0 →
  secureCookie st = Some sc →
  Encode sc (Session_name session) (now w1)
    (PValues (Session_Values session)) = Ok data' →
  let id := match s with
            | Some s0 => ID s0
            | None => newSessionID (GenerateRandomKey sessionIDLen w1).1
            end in
  store_error st w1 = None →
  (s = None → records st w !! id = None) →
  Encode sc (Session_name session) (now w1) (PString id) = Err e →
  ∃ out, Save st r rw session w = Ret out
    ∧ err out = Some e
    ∧ headers' out = rw
    ∧ records st (world' out) !! id
      = Some {| data := data';
                created_at := match s with
                              | Some s0 => CreatedAt s0
                              | None => now w
                              end;
                updated_at := now w;
                expires_at :=
                  Time_Add (now w)
                    (wrap64 (Second * opt_MaxAge (Session_Options session))) |}.
Proof.
  intros Hlook Hage Hsc Henc id Hok Hfresh Hid.
  destruct (getSessionFromCookie_inv _ _ _ _ _ _ Hlook)
    as (Hrec & Hnow & _ & _ & _).
  unfold Save. rewrite Hlook. simpl.
  destruct (decide (opt_MaxAge (Session_Options session) < 0)); [done |].
  rewrite Hsc. simpl. rewrite Henc.
  destruct s as [s0|]; subst id.
  - simpl in *. unfold tx_Save at 1. rewrite exec_fst.
    fold (store_error st w1). rewrite Hok. simpl. rewrite Hid.
    eexists. split; [done |]. simpl. split_and!; try done.
    rewrite records_with_conn. unfold tx_Save.
    rewrite (rows_of_exec_ok _ _ _ Hok).
    destruct (rows_of (sessionTable st) (conn w1) !! ID s0);
      rewrite lookup_insert_eq; unfold to_row; simpl; by rewrite Hnow.
  - specialize (Hfresh eq_refl).
    pose proof (GenerateRandomKey_world sessionIDLen w1) as Hw2.
    destruct (GenerateRandomKey sessionIDLen w1) as [rnd w2].
    simpl in *. subst w2. simpl.
    set (id := newSessionID rnd) in *. clearbody id.
    assert (Htx : ∀ row,
      tx_Create (sessionTable st) id row (conn w1)
      = exec (sessionTable st) (<[id := row]>) (conn w1)).
    { intros row. unfold tx_Create. fold (store_error st w1). rewrite Hok.
      fold (records st w1). by rewrite Hrec, Hfresh. }
    rewrite !Htx, exec_fst. fold (store_error st w1). rewrite Hok.
    simpl. rewrite Hid.
    eexists. split; [done |]. simpl. split_and!; try done.
    rewrite records_with_conn, (rows_of_exec_ok _ _ _ Hok), lookup_insert_eq.
    unfold to_row. simpl. by rewrite Hnow.
Qed.

End AnyEnvelope.
End CookieProofs.

(** ** The self-contained variant over the modelled envelope *)
Module EnvelopeProofs.
Import Cookie Envelope CookieExamples.

Example id1_value :
  id1 = "BMYFK6U7YTUQ4M2YPWRMP3ARGZNYBJOK54KDSXUDVDG7EFZ4MGDA"%string.
Proof. vm_compute. reflexivity. Qed.

(** The whole path, run on the example: the cookie issued under
    [key_a] loads the session in a store that kept [key_a] as a rotated
    key, and starts a fresh session in a store that dropped it. *)
Example rotated_key_still_loads :
  ∃ st' w', Store_New st_rotated with_cookie "sid" w2
            = Ret ({| Session_ID := id1;
                      Session_Values := {[ "user"%string := "alice"%string ]};
                      Session_Options := SessionOpts st_rotated;
                      Session_IsNew := false; Session_name := "sid" |}, st', w').
Proof. eexists _, _. reflexivity. Qed.

Example dropped_key_starts_fresh :
  ∃ st' w', Store_New st_dropped with_cookie "sid" w2
            = Ret (fresh_session st_dropped "sid", st', w').
Proof. eexists _, _. reflexivity. Qed.

(** Every reachable store keeps the key list it was built from, and its
    envelope encodes with the first key and has the others as rotated
    keys. *)
Lemma configured_envelope ks (st : Store) :
  configured ks st →
  keys st = ks
  ∧ ∃ k rot sc, ks = k :: rot ∧ secureCookie st = Some sc
                ∧ sc_key sc = k ∧ sc_RotatedKeys (sc_opts sc) = rot.
Proof.
  induction 1 as [o w st w' Hnew | st age w st' w' _ [Hk IH] HM
                 | st l w st' w' _ [Hk IH] HM].
  - unfold NewOptions in Hnew. destruct ks as [|k rot]; [done |].
    simpl in Hnew.
    destruct (decide (TableName o = "")); simpl in Hnew;
      destruct (SkipCreateTable o); simpl in Hnew;
      injection Hnew as <- _; (split; [done |]); by eexists _, _, _.
  - destruct IH as (k & rot & sc & -> & _). unfold MaxAge in HM.
    rewrite Hk in HM. injection HM as <- _. simpl.
    split; [done |]. by eexists _, _, _.
  - destruct IH as (k & rot & sc & -> & _). unfold MaxLength in HM.
    rewrite Hk in HM. injection HM as <- _. simpl.
    split; [done |]. by eexists _, _, _.
Qed.

Lemma open_unaccepted (sc : SC) name t k n ts p :
  k ∉ accepted sc → ∃ e, open sc name t (Sealed k n ts p) = Err e.
Proof.
  intros Hk. unfold open.
  destruct (decide (too_long sc (Sealed k n ts p))); [by eexists |].
  destruct (decide (k ∈ accepted sc ∧ n = name)) as [[? _]|]; [done | by eexists].
Qed.

(** C6. Key rotation, over the modelled envelope.  Take a store
    reachable from the key list [old] and a store reachable from the
    key list [new].  Both have an envelope, and [old] has a first key
    [k].  Whatever the old store encodes is sealed under [k], never
    under another key of [old].  The new store decodes such a value
    back to its payload whenever [k] is anywhere in [new] (first or
    rotated) and the value is within the new envelope's limits of age
    and length; once [k] is not in [new], decoding fails and a request
    carrying the value as its cookie finds no session. *)
Theorem key_rotation (old new : list (list Z)) (st_old st_new : Store) :
  configured old st_old →
  configured new st_new →
  ∃ k rot sc_old sc_new,
    old = k :: rot
    ∧ secureCookie st_old = Some sc_old
    ∧ secureCookie st_new = Some sc_new
    ∧ ∀ name t p v,
        Encode sc_old name t p = Ok v →
        v = Sealed k name t p
        ∧ (∀ t', k ∈ new → ¬ too_long sc_new v → ¬ expired sc_new t t' →
                 open sc_new name t' v = Ok p)
        ∧ (∀ t', k ∉ new → ∃ e, open sc_new name t' v = Err e)
        ∧ (∀ r w cookie,
             k ∉ new →
             Request_Cookie r name = Some cookie →
             Cookie_Value cookie = v →
             getSessionFromCookie st_new r name w = Ret (None, w)).
Proof.
  intros Hold Hnew.
  destruct (configured_envelope _ _ Hold) as (_ & k & rot & sc_old & -> & Hsc_old & Hk & _).
  destruct (configured_envelope _ _ Hnew)
    as (_ & k' & rot' & sc_new & -> & Hsc_new & Hk' & Hrot').
  exists k, rot, sc_old, sc_new. split_and!; try done.
  assert (Hacc : accepted sc_new = k' :: rot') by (unfold accepted; congruence).
  intros name t p v Henc. simpl in Henc. unfold seal in Henc.
  destruct (decide (too_long sc_old _)); [done |].
  injection Henc as <-. rewrite Hk. split_and!; try done.
  - intros t' Hin Hlen Hage. unfold open.
    destruct (decide (too_long sc_new _)); [done |].
    rewrite Hacc.
    destruct (decide (k ∈ k' :: rot' ∧ name = name)) as [_|Hno]; [| tauto].
    by destruct (decide (expired sc_new t t')).
  - intros t' Hout. apply open_unaccepted. by rewrite Hacc.
  - intros r w cookie Hout Hcookie Hval. unfold getSessionFromCookie.
    rewrite Hcookie, Hsc_new. simpl.
    destruct (open_unaccepted sc_new name (now w) k name t p) as [e He];
      [by rewrite Hacc |].
    by rewrite Hval, He.
Qed.

Lemma key_rotation_witness :
  ∃ k rot sc_old sc_new,
    [key_a] = k :: rot
    ∧ secureCookie st = Some sc_old
    ∧ secureCookie st_rotated = Some sc_new
    ∧ ∀ name t p v,
        Encode sc_old name t p = Ok v →
        v = Sealed k name t p
        ∧ (∀ t', k ∈ [key_b; key_a] → ¬ too_long sc_new v →
                 ¬ expired sc_new t t' → open sc_new name t' v = Ok p)
        ∧ (∀ t', k ∉ [key_b; key_a] → ∃ e, open sc_new name t' v = Err e)
        ∧ (∀ r w cookie,
             k ∉ [key_b; key_a] →
             Request_Cookie r name = Some cookie →
             Cookie_Value cookie = v →
             getSessionFromCookie st_rotated r name w = Ret (None, w)).
Proof.
  apply (key_rotation [key_a] [key_b; key_a] st st_rotated).
  - apply (configured_NewOptions [key_a]
             {| TableName := ""; SkipCreateTable := false |} w0 st w1).
    reflexivity.
  - apply (configured_NewOptions [key_b; key_a]
             {| TableName := ""; SkipCreateTable := false |} w2 st_rotated
             (returned (nil_store, w2) (New [key_b; key_a] w2)).2).
    reflexivity.
Defined.

Lemma absolute_expiry_witness :
  (∃ w', getSessionFromCookie st with_cookie "sid" w2_late = Ret (None, w'))
  ∧ records st (Cleanup st w2_late) !! id1 = None.
Proof.
  assert (Hrow : records st w2_late !! id1 = Some row1)
    by reflexivity.
  assert (Hexp : expires_at row1 ≤ now w2_late) by (apply Z.leb_le; reflexivity).
  destruct (CookieProofs.absolute_expiry st w2_late id1 row1 Hrow Hexp)
    as (_ & Hlookup & _ & Hclean & _).
  split.
  - apply (Hlookup with_cookie "sid"%string sc_a cookie1);
      reflexivity.
  - apply Hclean. reflexivity.
Defined.


Lemma session_id_generation_witness :
  ∃ out, Save st no_cookie [] session0 w1 = Ret out
         ∧ String.length (Session_ID (session' out)) = 52%nat.
Proof.
  assert (Hlook : getSessionFromCookie st no_cookie (Session_name session0) w1
                  = Ret (None, w1)) by reflexivity.
  assert (Hage : ¬ opt_MaxAge (Session_Options session0) < 0) by (simpl; lia).
  assert (Hsc : secureCookie st = Some sc_a) by reflexivity.
  assert (Henc : Encode sc_a (Session_name session0) (now w1)
                   (PValues (Session_Values session0)) = Ok data1)
    by reflexivity.
  destruct (CookieProofs.session_id_generation st no_cookie [] session0 w1 w1
              sc_a data1 Hlook Hage Hsc Henc)
    as (out & HS & _ & _ & _ & _ & Hlen & _).
  exists out. split; [exact HS | exact Hlen].
Defined.

Lemma Save_not_atomic_witness :
  ∃ out, Save st60 no_cookie [] empty_session w1_60 = Ret out
         ∧ err out = Some "the value is too long"%string
         ∧ headers' out = []
         ∧ is_Some (records st60 (world' out) !! id1).
Proof.
  assert (Hlook : getSessionFromCookie st60 no_cookie (Session_name empty_session)
                    w1_60 = Ret (None, w1_60)) by reflexivity.
  assert (Hage : ¬ opt_MaxAge (Session_Options empty_session) < 0)
    by (simpl; lia).
  pose (sc60 := {| sc_key := key_a;
                   sc_opts := {| sc_MaxAge := 86400 * 30; sc_MaxLength := 60;
                                 sc_RotatedKeys := [];
                                 sc_Serializer := GobEncoder |} |}).
  assert (Hsc : secureCookie st60 = Some sc60) by reflexivity.
  assert (Henc : Encode sc60 (Session_name empty_session) (now w1_60)
                   (PValues (Session_Values empty_session))
                 = Ok (Sealed key_a "sid" (now w1_60) (PValues ∅)))
    by reflexivity.
  assert (Hok : store_error st60 w1_60 = None) by reflexivity.
  assert (Hfresh : @None gormSession = None →
                   records st60 w1_60 !! id1 = None) by (intros _; reflexivity).
  assert (Hid : Encode sc60 (Session_name empty_session) (now w1_60) (PString id1)
                = Err "the value is too long"%string) by reflexivity.
  destruct (CookieProofs.Save_not_atomic st60 no_cookie [] empty_session w1_60
              None w1_60 sc60 (Sealed key_a "sid" (now w1_60) (PValues ∅))
              "the value is too long"%string Hlook Hage Hsc Henc Hok Hfresh Hid)
    as (out & HS & He & Hh & Hrow).
  exists out. split; [exact HS |]. split; [exact He |]. split; [exact Hh |].
  change id1 with (newSessionID (GenerateRandomKey sessionIDLen w1_60).1).
  rewrite Hrow. by eexists.
Defined.

End EnvelopeProofs.

(** ** The driver variant: construction, composition, edges *)
Module DriverExtra.
Import Driver.

Implicit Types (st : Store) (w : World) (id : string).

Lemma stmt_error_missing {Cols : Type} tn (db : DB Cols) :
  tables db !! tn = None → is_Some (stmt_error tn db).
Proof.
  intros Hmiss. unfold stmt_error.
  destruct (next_fault db); [by eexists |]. rewrite Hmiss. by eexists.
Qed.

Lemma sessionTable_NewOptions (o : Options) w :
  sessionTable (NewOptions o w).1
  = if decide (TableName o = "") then defaultTableName else TableName o.
Proof.
  unfold NewOptions. simpl.
  destruct (decide (TableName o = "")); simpl; by destruct (SkipCreateTable o).
Qed.

Lemma rows_of_tx_AutoMigrate {Cols : Type} tn (db : DB Cols) :
  rows_of tn (tx_AutoMigrate tn db).2 = rows_of tn db.
Proof.
  unfold tx_AutoMigrate. destruct (next_fault db); [done |].
  unfold rows_of at 1. simpl. by rewrite lookup_insert_eq.
Qed.

Lemma NewOptions_world (o : Options) w :
  SkipCreateTable o = false →
  (NewOptions o w).2
  = with_conn w (tx_AutoMigrate (sessionTable (NewOptions o w).1) (conn w)).2.
Proof.
  intros Hskip. unfold NewOptions. simpl.
  destruct (decide (TableName o = "")); simpl; by rewrite Hskip.
Qed.

(** X1. [NewOptions] on a connection that runs the migration: the store's
    table is ["sessions"] unless the options name another one, it exists
    afterwards, the rows it already held are all still there, and no
    other table is touched. *)
Theorem NewOptions_creates_table (o : Options) w :
  SkipCreateTable o = false →
  next_fault (conn w) = None →
  sessionTable (NewOptions o w).1
  = (if decide (TableName o = "") then "sessions"%string else TableName o)
  ∧ is_Some (tables (conn (NewOptions o w).2) !! sessionTable (NewOptions o w).1)
  ∧ records (NewOptions o w).1 (NewOptions o w).2
    = records (NewOptions o w).1 w
  ∧ (∀ tn, tn ≠ sessionTable (NewOptions o w).1 →
           tables (conn (NewOptions o w).2) !! tn = tables (conn w) !! tn).
Proof.
  intros Hskip Hok. split; [apply sessionTable_NewOptions |].
  rewrite (NewOptions_world o w Hskip). unfold records. simpl.
  rewrite rows_of_tx_AutoMigrate.
  unfold tx_AutoMigrate. rewrite Hok. simpl.
  split_and!; [rewrite lookup_insert_eq; by eexists | done |].
  intros tn Hne. by rewrite lookup_insert_ne.
Qed.

(** X2. [NewOptions] does not report a migration it skipped or that failed:
    the store is returned with the tables as they were.  If its table
    does not exist, every [Write] then fails while every [Read] answers
    the empty payload with a nil error. *)
Theorem NewOptions_swallows_failed_migration (o : Options) w :
  SkipCreateTable o = true ∨ is_Some (next_fault (conn w)) →
  tables (conn (NewOptions o w).2) = tables (conn w)
  ∧ (tables (conn w) !! sessionTable (NewOptions o w).1 = None →
     ∀ K P, is_Some (Write (NewOptions o w).1 K P (NewOptions o w).2).1
            ∧ (Read (NewOptions o w).1 K (NewOptions o w).2).1
              = (""%string, None)).
Proof.
  intros Hcase.
  assert (Htab : tables (conn (NewOptions o w).2) = tables (conn w)).
  { unfold NewOptions. simpl.
    destruct (decide (TableName o = "")); simpl;
      (destruct (SkipCreateTable o) eqn:Hs; simpl; [done |]);
      (destruct Hcase as [? | [e' He]]; [done |]);
      unfold tx_AutoMigrate; by rewrite He. }
  split; [done |]. intros Hmiss K P.
  destruct (stmt_error_missing (sessionTable (NewOptions o w).1)
              (conn (NewOptions o w).2)) as [e He]; [by rewrite Htab |].
  split.
  - rewrite DriverProofs.Write_fst. by eexists.
  - by apply (DriverProofs.Read_err _ _ _ e).
Qed.


Lemma filter_ne_absent (K : string) (m : gmap string Cols) :
  m !! K = None → filter (λ kv : string * Cols, ¬ kv.1 = K) m = m.
Proof.
  intros Habs. apply map_filter_id. intros id c Hc. simpl. congruence.
Qed.

(** X4. [Destroy] undoes a [Write] of a new ID: if [K] had no row and the
    store runs both statements, the table after [Write(K, P)] and
    [Destroy(K)] is the table before, and [Read(K)] answers the empty
    payload. *)
Theorem Destroy_undoes_Write st (K P : string) w :
  records st w !! K = None →
  store_error st w = None →
  store_error st (Write st K P w).2 = None →
  records st (Destroy st K (Write st K P w).2).2 = records st w
  ∧ (store_error st (Destroy st K (Write st K P w).2).2 = None →
     (Read st K (Destroy st K (Write st K P w).2).2).1 = (""%string, None)).
Proof.
  intros Habs Hok1 Hok2.
  assert (Hrec : records st (Destroy st K (Write st K P w).2).2 = records st w).
  { rewrite (DriverProofs.records_Destroy _ _ _ Hok2),
      (DriverProofs.records_Write _ _ _ _ Hok1), Habs.
    rewrite map_filter_insert_False by (simpl; tauto).
    rewrite delete_id by done. by apply filter_ne_absent. }
  split; [done |]. intros Hok3.
  by rewrite (DriverProofs.Read_ok _ _ _ Hok3), Hrec, Habs.
Qed.

(** X5. [Read] never returns an error and never changes a row, whatever the
    state of the store. *)
Theorem Read_never_fails_never_writes st id w :
  (Read st id w).1.2 = None
  ∧ records st (Read st id w).2 = records st w.
Proof.
  unfold Read, getSessionByID, records.
  pose proof (rows_of_tx_Find (sessionTable st) id (λ _, True) (conn w)) as Hrows.
  destruct (tx_Find (sessionTable st) id (λ _ : Cols, True) (conn w))
    as [[[e|] r] d]; simpl in *; by split.
Qed.

(** X6. On a store that answers the lookup, [Read(K)] returns the empty
    payload exactly when [K] has no row or its row holds the empty
    payload: the two cannot be told apart. *)
Theorem Read_empty_iff st (K : string) w :
  store_error st w = None →
  (Read st K w).1 = (""%string, None)
  ↔ records st w !! K = None
    ∨ ∃ c, records st w !! K = Some c ∧ data c = ""%string.
Proof.
  intros Hok. rewrite (DriverProofs.Read_ok _ _ _ Hok).
  destruct (records st w !! K) as [c|]; simpl.
  - split.
    + intros [= Hd]. right. by exists c.
    + intros [? | (c' & [= <-] & ->)]; done.
  - split; [by left | done].
Qed.



Lemma records_Gc_err st m w e :
  store_error st w = Some e → records st (Gc st m w).2 = records st w.
Proof.
  intros Herr. unfold records, Gc, tx_Delete. simpl.
  by rewrite (rows_of_exec_err _ _ _ e Herr).
Qed.

(** X7. [Gc] only ever deletes: for every [maxLifetime], in range or not,
    and whether or not the store runs the statement, each row present
    afterwards was present before, unchanged. *)
Theorem Gc_never_adds st (maxLifetime : Z) w :
  records st (Gc st maxLifetime w).2 ⊆ records st w.
Proof.
  destruct (store_error st w) as [e|] eqn:E.
  - by rewrite (records_Gc_err _ _ _ e E).
  - rewrite (DriverProofs.records_Gc _ _ _ E). apply map_filter_subseteq.
Qed.




Lemma NewOptions_creates_table_witness :
  sessionTable (NewOptions {| TableName := ""; SkipCreateTable := false |}
                  DriverExamples.w0).1 = "sessions"%string
  ∧ is_Some (tables (conn DriverExamples.w1) !! "sessions"%string).
Proof.
  destruct (NewOptions_creates_table
              {| TableName := ""; SkipCreateTable := false |} DriverExamples.w0)
    as (Hname & Hexists & _); [reflexivity | reflexivity |].
  split; [exact Hname | exact Hexists].
Defined.

Lemma NewOptions_swallows_failed_migration_witness :
  is_Some (Write (NewOptions {| TableName := "t"; SkipCreateTable := true |}
                    DriverExamples.w0).1 "k" "v"
             (NewOptions {| TableName := "t"; SkipCreateTable := true |}
                DriverExamples.w0).2).1
  ∧ (Read (NewOptions {| TableName := "t"; SkipCreateTable := true |}
             DriverExamples.w0).1 "k"
       (NewOptions {| TableName := "t"; SkipCreateTable := true |}
          DriverExamples.w0).2).1 = (""%string, None).
Proof.
  destruct (NewOptions_swallows_failed_migration
              {| TableName := "t"; SkipCreateTable := true |} DriverExamples.w0)
    as [_ Hmiss]; [left; reflexivity |].
  apply (Hmiss eq_refl "k"%string "v"%string).
Defined.


Lemma Destroy_undoes_Write_witness :
  records DriverExamples.st
    (Destroy DriverExamples.st "k"
       (Write DriverExamples.st "k" "v" DriverExamples.w1).2).2
  = records DriverExamples.st DriverExamples.w1.
Proof.
  apply (Destroy_undoes_Write DriverExamples.st "k" "v" DriverExamples.w1);
    reflexivity.
Defined.

Lemma Read_empty_iff_witness :
  (Read DriverExamples.st "absent" DriverExamples.w2).1 = (""%string, None).
Proof.
  apply (Read_empty_iff DriverExamples.st "absent" DriverExamples.w2);
    [reflexivity | left; reflexivity].
Defined.




End DriverExtra.

(** ** The self-contained variant: lookup, loading, saving, cleanup *)
Module CookieExtra.
Import Cookie.

Section AnyEnvelope.
Context `{lib : SecureCookieLib}.
Implicit Types (st : Store) (w : World) (r : Request) (rw : list http_Cookie)
  (session : Session) (id name : string).

Lemma lookup_without_query_fact st r name w :
  (Request_Cookie r name = None →
   getSessionFromCookie st r name w = Ret (None, w))
  ∧ (∀ cookie sc e,
       Request_Cookie r name = Some cookie →
       secureCookie st = Some sc →
       Decode_string sc name (now w) (Cookie_Value cookie) = Err e →
       getSessionFromCookie st r name w = Ret (None, w)).
Proof.
  unfold getSessionFromCookie. split.
  - by intros ->.
  - intros cookie sc e -> -> Hdec. simpl. by rewrite Hdec.
Qed.

(** X14. A request without the cookie, or whose cookie does not decode, is
    answered without any statement: no session, and the process exactly
    as it was. *)
Theorem lookup_without_query st r name w :
  (Request_Cookie r name = None →
   getSessionFromCookie st r name w = Ret (None, w))
  ∧ (∀ cookie sc e,
       Request_Cookie r name = Some cookie →
       secureCookie st = Some sc →
       Decode_string sc name (now w) (Cookie_Value cookie) = Err e →
       getSessionFromCookie st r name w = Ret (None, w)).
Proof. exact (lookup_without_query_fact st r name w). Qed.

Lemma lookup_by_cookie_fact st r name w cookie sc id :
  Request_Cookie r name = Some cookie →
  secureCookie st = Some sc →
  Decode_string sc name (now w) (Cookie_Value cookie) = Ok id →
  ∃ w1, getSessionFromCookie st r name w
        = Ret (match store_error st w, records st w !! id with
               | None, Some c =>
                   if decide (expires_at c > now w) then Some (of_row id c)
                   else None
               | _, _ => None
               end, w1)
        ∧ records st w1 = records st w.
Proof.
  intros Hcookie Hsc Hdec. unfold getSessionFromCookie.
  rewrite Hcookie, Hsc. simpl. rewrite Hdec.
  unfold tx_Find, store_error, records.
  destruct (stmt_error (sessionTable st) (conn w)); simpl; [by eexists |].
  destruct (rows_of (sessionTable st) (conn w) !! id) as [c|]; [| by eexists].
  destruct (decide (expires_at c > now w)); by eexists.
Qed.

(** X15. The session a decodable cookie finds.  When the cookie decodes to
    [id], the lookup returns, changes no row, and answers the row stored
    under [id] if the store runs the query and the row is not expired;
    in every other case (store error, no row, expired row) it answers no
    session. *)
Theorem lookup_by_cookie st r name w cookie sc id :
  Request_Cookie r name = Some cookie →
  secureCookie st = Some sc →
  Decode_string sc name (now w) (Cookie_Value cookie) = Ok id →
  ∃ w1, getSessionFromCookie st r name w
        = Ret (match store_error st w, records st w !! id with
               | None, Some c =>
                   if decide (expires_at c > now w) then Some (of_row id c)
                   else None
               | _, _ => None
               end, w1)
        ∧ records st w1 = records st w.
Proof. exact (lookup_by_cookie_fact st r name w cookie sc id). Qed.

Lemma records_MaxAge st age w st1 w0 :
  MaxAge st age w = Ret (st1, w0) →
  ∀ w', conn w' = conn w0 → records st1 w' = records st w.
Proof.
  intros HM w' Hconn.
  destruct (CookieProofs.MaxAge_inv _ _ _ _ _ HM) as (Hopts & _ & Hc & _).
  unfold records, sessionTable. by rewrite Hopts, Hconn, Hc.
Qed.

(** X16. What [Store.New] can return.  It writes no row.  The session bears
    the name asked for and a copy of the store's options, and it is
    either fresh ([IsNew], no ID, no values) or loaded: then its ID names
    a stored row that is not expired, and its values are what the
    envelope decodes from that row's data. *)
Theorem Store_New_sound st r name w session st1 w1 :
  Store_New st r name w = Ret (session, st1, w1) →
  records st1 w1 = records st w
  ∧ Session_name session = name
  ∧ Session_Options session = SessionOpts st
  ∧ (session = fresh_session st name
     ∨ Session_IsNew session = false
       ∧ ∃ c sc, records st w !! Session_ID session = Some c
                 ∧ expires_at c > now w
                 ∧ secureCookie st1 = Some sc
                 ∧ Decode_values sc name (now w) (data c)
                   = Ok (Session_Values session)).
Proof.
  unfold Store_New.
  destruct (MaxAge st (opt_MaxAge (SessionOpts st)) w) as [[st' w0]|] eqn:HM;
    [| done]. simpl.
  destruct (getSessionFromCookie st' r name w0) as [[s w2]|] eqn:Hlook;
    [| done]. simpl.
  destruct (CookieProofs.getSessionFromCookie_inv _ _ _ _ _ _ Hlook)
    as (Hrec & Hnow & _ & _ & Hs).
  destruct (CookieProofs.MaxAge_inv _ _ _ _ _ HM) as (_ & _ & _ & Hnow0 & _).
  pose proof (records_MaxAge _ _ _ _ _ HM w0 eq_refl) as Hrec0.
  destruct s as [s|].
  - destruct (secureCookie st') as [sc|] eqn:Hsc; [| done]. simpl.
    destruct (Decode_values sc name (now w2) (Data s)) as [v|e] eqn:Hv.
    + intros [= <- <- <-]. simpl. split_and!; try done; [congruence |].
      right. split; [done |].
      destruct (Hs s eq_refl) as [Hin Hlive].
      exists (to_row s), sc. rewrite <- Hrec0, <- Hnow0.
      split_and!; try done. by rewrite <- Hnow.
    + intros [= <- <- <-]. simpl. split_and!; try done; [congruence | by left].
  - intros [= <- <- <-]. simpl. split_and!; try done; [congruence | by left].
Qed.

Lemma Store_New_loads_fact st r name w st1 w0 sc cookie id (c : Cols) v :
  MaxAge st (opt_MaxAge (SessionOpts st)) w = Ret (st1, w0) →
  Request_Cookie r name = Some cookie →
  secureCookie st1 = Some sc →
  Decode_string sc name (now w) (Cookie_Value cookie) = Ok id →
  store_error st w = None →
  records st w !! id = Some c →
  expires_at c > now w →
  Decode_values sc name (now w) (data c) = Ok v →
  ∃ w1, Store_New st r name w
        = Ret ({| Session_ID := id; Session_Values := v;
                  Session_Options := SessionOpts st; Session_IsNew := false;
                  Session_name := name |}, st1, w1).
Proof.
  intros HM Hcookie Hsc Hdec Hok Hrow Hlive Hv.
  destruct (CookieProofs.MaxAge_inv _ _ _ _ _ HM) as (Hopts & _ & Hconn & Hnow & _).
  pose proof (records_MaxAge _ _ _ _ _ HM w0 eq_refl) as Hrec0.
  destruct (lookup_by_cookie_fact st1 r name w0 cookie sc id) as (w1 & Hlook & _);
    try done; [by rewrite Hnow |].
  assert (Hok0 : store_error st1 w0 = None).
  { unfold store_error, sessionTable. by rewrite Hopts, Hconn. }
  rewrite Hok0, Hrec0, Hrow, Hnow in Hlook.
  destruct (decide (expires_at c > now w)); [| done].
  assert (Hnow1 : now w1 = now w).
  { destruct (CookieProofs.getSessionFromCookie_inv _ _ _ _ _ _ Hlook)
      as (_ & Hn & _). congruence. }
  exists w1. unfold Store_New. rewrite HM. simpl. rewrite Hlook. simpl.
  rewrite Hsc. simpl. by rewrite Hnow1, Hv.
Qed.

(** X17. [Store.New] loads what is stored: when the cookie decodes to [id]
    under the envelope [MaxAge] rebuilds, the store runs the query, the
    row under [id] is not expired and its data decodes to [v], the
    session returned has ID [id], values [v] and is not new. *)
Theorem Store_New_loads st r name w st1 w0 sc cookie id (c : Cols) v :
  MaxAge st (opt_MaxAge (SessionOpts st)) w = Ret (st1, w0) →
  Request_Cookie r name = Some cookie →
  secureCookie st1 = Some sc →
  Decode_string sc name (now w) (Cookie_Value cookie) = Ok id →
  store_error st w = None →
  records st w !! id = Some c →
  expires_at c > now w →
  Decode_values sc name (now w) (data c) = Ok v →
  ∃ w1, Store_New st r name w
        = Ret ({| Session_ID := id; Session_Values := v;
                  Session_Options := SessionOpts st; Session_IsNew := false;
                  Session_name := name |}, st1, w1).
Proof. exact (Store_New_loads_fact st r name w st1 w0 sc cookie id c v). Qed.

(** X18. A row whose data the envelope cannot decode does not fail
    [Store.New]: the session comes back fresh, and the row stays where
    it is. *)
Theorem Store_New_undecodable_data st r name w st1 w0 sc cookie id (c : Cols) e :
  MaxAge st (opt_MaxAge (SessionOpts st)) w = Ret (st1, w0) →
  Request_Cookie r name = Some cookie →
  secureCookie st1 = Some sc →
  Decode_string sc name (now w) (Cookie_Value cookie) = Ok id →
  store_error st w = None →
  records st w !! id = Some c →
  expires_at c > now w →
  Decode_values sc name (now w) (data c) = Err e →
  ∃ w1, Store_New st r name w = Ret (fresh_session st name, st1, w1)
        ∧ records st1 w1 !! id = Some c.
Proof.
  intros HM Hcookie Hsc Hdec Hok Hrow Hlive Hv.
  destruct (CookieProofs.MaxAge_inv _ _ _ _ _ HM) as (Hopts & _ & Hconn & Hnow & _).
  pose proof (records_MaxAge _ _ _ _ _ HM w0 eq_refl) as Hrec0.
  destruct (lookup_by_cookie_fact st1 r name w0 cookie sc id) as (w1 & Hlook & Hrec1);
    try done; [by rewrite Hnow |].
  assert (Hok0 : store_error st1 w0 = None).
  { unfold store_error, sessionTable. by rewrite Hopts, Hconn. }
  rewrite Hok0, Hrec0, Hrow, Hnow in Hlook.
  destruct (decide (expires_at c > now w)); [| done].
  assert (Hnow1 : now w1 = now w).
  { destruct (CookieProofs.getSessionFromCookie_inv _ _ _ _ _ _ Hlook)
      as (_ & Hn & _). congruence. }
  exists w1. split; [| by rewrite Hrec1, Hrec0].
  unfold Store_New. rewrite HM. simpl. rewrite Hlook. simpl.
  rewrite Hsc. simpl. by rewrite Hnow1, Hv.
Qed.

Lemma configured_keys ks st :
  configured ks st → keys st = ks ∧ ks ≠ [].
Proof.
  induction 1 as [o w st w' Hnew | st age w st' w' _ [Hk Hne] HM
                 | st l w st' w' _ [Hk Hne] HM].
  - unfold NewOptions in Hnew. destruct ks as [|k rot]; [done |].
    simpl in Hnew.
    destruct (decide (TableName o = "")); simpl in Hnew;
      destruct (SkipCreateTable o); simpl in Hnew;
      by injection Hnew as <- _.
  - unfold MaxAge in HM. destruct (keys st) as [|k rot] eqn:E; [done |].
    injection HM as <- _. by split.
  - unfold MaxLength in HM. destruct (keys st) as [|k rot] eqn:E; [done |].
    injection HM as <- _. by split.
Qed.

(** X12. On a store that [NewOptions] built, however often reconfigured,
    [MaxAge] and [MaxLength] never panic.  They keep the keys and the
    table, run no statement, and record the new limit both in the store
    ([MaxAge] only) and in the package-wide default options. *)
Theorem MaxAge_MaxLength_on_configured ks st (age l : Z) w :
  configured ks st →
  ∃ st1 w1 st2 w2,
    MaxAge st age w = Ret (st1, w1)
    ∧ MaxLength st l w = Ret (st2, w2)
    ∧ keys st1 = ks ∧ keys st2 = ks
    ∧ opts st1 = opts st ∧ opts st2 = opts st
    ∧ opt_MaxAge (SessionOpts st1) = age ∧ SessionOpts st2 = SessionOpts st
    ∧ conn w1 = conn w ∧ conn w2 = conn w
    ∧ sc_MaxAge (DefaultOptions w1) = age
    ∧ sc_MaxLength (DefaultOptions w2) = l.
Proof.
  intros Hconf. destruct (configured_keys _ _ Hconf) as [Hk Hne].
  unfold MaxAge, MaxLength. rewrite Hk.
  destruct ks as [|k rot]; [done |]. by eexists _, _, _, _.
Qed.

(** X13. The envelope limits are shared by every store of the process: the
    length limit last set through [MaxLength] on any store is the one
    [MaxAge] gives the envelope it builds for another store, and the age
    limit last set through [MaxAge] is the one [MaxLength] reuses. *)
Theorem envelope_limits_are_shared (a b : Store) (age l : Z) w k rot :
  keys a = k :: rot →
  (∀ b' w1, MaxLength b l w = Ret (b', w1) →
     ∃ a' w2, MaxAge a age w1 = Ret (a', w2)
       ∧ secureCookie a'
         = drop_err (securecookie_New k
             {| sc_MaxAge := age; sc_MaxLength := l;
                sc_RotatedKeys := rot; sc_Serializer := GobEncoder |}))
  ∧ (∀ b' w1, MaxAge b age w = Ret (b', w1) →
       ∃ a' w2, MaxLength a l w1 = Ret (a', w2)
         ∧ secureCookie a'
           = drop_err (securecookie_New k
               {| sc_MaxAge := age; sc_MaxLength := l;
                  sc_RotatedKeys := rot; sc_Serializer := GobEncoder |})).
Proof.
  intros Hk. split; intros b' w1 Hb.
  - unfold MaxLength in Hb. destruct (keys b); [done |].
    injection Hb as _ <-. unfold MaxAge. rewrite Hk. by eexists _, _.
  - unfold MaxAge in Hb. destruct (keys b); [done |].
    injection Hb as _ <-. unfold MaxLength. rewrite Hk. by eexists _, _.
Qed.

(** X25. [Cleanup] cannot be seen through a lookup: when the store runs the
    statements, every request finds after [Cleanup] the session it would
    have found before, because lookups already skip expired rows. *)
Theorem Cleanup_invisible_to_lookups st r name w s w1 :
  store_error st w = None →
  store_error st (Cleanup st w) = None →
  getSessionFromCookie st r name w = Ret (s, w1) →
  ∃ w1', getSessionFromCookie st r name (Cleanup st w) = Ret (s, w1').
Proof.
  intros Hok Hok' Hlook.
  assert (Hnow : now (Cleanup st w) = now w) by done.
  destruct (Request_Cookie r name) as [cookie|] eqn:Hcookie.
  - destruct (secureCookie st) as [sc|] eqn:Hsc.
    + destruct (Decode_string sc name (now w) (Cookie_Value cookie))
        as [id|e] eqn:Hdec.
      * destruct (lookup_by_cookie_fact st r name w cookie sc id)
          as (w2 & Hl & _); try done.
        destruct (lookup_by_cookie_fact st r name (Cleanup st w) cookie sc id)
          as (w2' & Hl' & _); try done.
        rewrite Hl in Hlook. injection Hlook as <- _.
        exists w2'. rewrite Hl', Hok, Hok', Hnow.
        rewrite (CookieProofs.records_Cleanup_ok _ _ Hok).
        do 2 f_equal.
        destruct (records st w !! id) as [c|] eqn:Hc.
        -- destruct (decide (expires_at c > now w)) as [Hlive|Hdead].
           ++ rewrite (map_lookup_filter_Some_2 _ _ id c); [| done | simpl; lia].
              by destruct (decide (expires_at c > now w)).
           ++ by rewrite (proj2 (map_lookup_filter_None _ _ id));
                [| right; intros c' Hc'; rewrite Hc in Hc'; injection Hc' as <-; simpl; lia].
        -- by rewrite (proj2 (map_lookup_filter_None _ _ id)); [| left].
      * destruct (lookup_without_query_fact st r name w) as [_ Hl].
        destruct (lookup_without_query_fact st r name (Cleanup st w)) as [_ Hl'].
        rewrite (Hl cookie sc e Hcookie Hsc Hdec) in Hlook.
        injection Hlook as <- _. eexists.
        apply (Hl' cookie sc e Hcookie Hsc). by rewrite Hnow.
    + unfold getSessionFromCookie in Hlook. by rewrite Hcookie, Hsc in Hlook.
  - destruct (lookup_without_query_fact st r name w) as [Hl _].
    destruct (lookup_without_query_fact st r name (Cleanup st w)) as [Hl' _].
    rewrite (Hl Hcookie) in Hlook. injection Hlook as <- _.
    eexists. by apply Hl'.
Qed.

(** [Save] with a max-age that is not negative, one step at a time. *)
Lemma Save_steps st r rw session w s w1 sc :
  getSessionFromCookie st r (Session_name session) w = Ret (s, w1) →
  ¬ opt_MaxAge (Session_Options session) < 0 →
  secureCookie st = Some sc →
  Save st r rw session w
  = match Encode sc (Session_name session) (now w1)
            (PValues (Session_Values session)) with
    | Err e => Ret {| err := Some e; session' := session; headers' := rw;
                      world' := w1 |}
    | Ok data' =>
        let id := match s with
                  | Some s0 => ID s0
                  | None => newSessionID (GenerateRandomKey sessionIDLen w1).1
                  end in
        let sess := match s with
                    | Some _ => session
                    | None => with_ID session id
                    end in
        let w2 := match s with
                  | Some _ => w1
                  | None => (GenerateRandomKey sessionIDLen w1).2
                  end in
        let row := {| data := data';
                      created_at := match s with
                                    | Some s0 => CreatedAt s0
                                    | None => now w1
                                    end;
                      updated_at := now w1;
                      expires_at :=
                        Time_Add (now w1)
                          (wrap64 (Second * opt_MaxAge (Session_Options session))) |} in
        let tx := match s with
                  | Some _ => tx_Save (sessionTable st) id (λ _, row) row (conn w1)
                  | None => tx_Create (sessionTable st) id row (conn w1)
                  end in
        match tx.1 with
        | Some e => Ret {| err := Some e; session' := sess; headers' := rw;
                           world' := with_conn w2 tx.2 |}
        | None =>
            match Encode sc (Session_name session) (now w1) (PString id) with
            | Err e => Ret {| err := Some e; session' := sess; headers' := rw;
                              world' := with_conn w2 tx.2 |}
            | Ok idw =>
                Ret {| err := None; session' := sess;
                       headers' := SetCookie rw (NewCookie (Session_name session)
                                     idw (Session_Options session));
                       world' := with_conn w2 tx.2 |}
            end
        end
    end.
Proof.
  intros Hlook Hage Hsc. unfold Save. rewrite Hlook.
  cbn [mbind outcome_bind].
  destruct (decide (opt_MaxAge (Session_Options session) < 0)); [done |].
  rewrite Hsc. cbn [deref mbind outcome_bind].
  destruct (Encode sc (Session_name session) (now w1)
              (PValues (Session_Values session))); [| done].
  by destruct s.
Qed.

Lemma tx_Create_ok tn id (c : Cols) (d : DB Cols) :
  (tx_Create tn id c d).1 = None →
  stmt_error tn d = None
  ∧ rows_of tn d !! id = None
  ∧ rows_of tn (tx_Create tn id c d).2 = <[id := c]> (rows_of tn d).
Proof.
  unfold tx_Create. destruct (stmt_error tn d) eqn:E; [done |].
  destruct (rows_of tn d !! id) eqn:Hid; [done |].
  intros _. by rewrite (rows_of_exec_ok _ _ _ E).
Qed.

Lemma tx_Create_err tn id (c : Cols) (d : DB Cols) e :
  (tx_Create tn id c d).1 = Some e →
  rows_of tn (tx_Create tn id c d).2 = rows_of tn d.
Proof.
  unfold tx_Create. destruct (stmt_error tn d) eqn:E; [done |].
  destruct (rows_of tn d !! id) eqn:Hid; [done |].
  rewrite exec_fst, E. done.
Qed.

Lemma tx_Create_refused tn id (c : Cols) (d : DB Cols) e :
  stmt_error tn d = Some e → (tx_Create tn id c d).1 = Some e.
Proof. intros Herr. unfold tx_Create. by rewrite Herr. Qed.

Lemma tx_Save_rows tn id (c : Cols) (d : DB Cols) :
  (tx_Save tn id (λ _, c) c d).1 = stmt_error tn d
  ∧ rows_of tn (tx_Save tn id (λ _, c) c d).2
    = match stmt_error tn d with
      | None => <[id := c]> (rows_of tn d)
      | Some _ => rows_of tn d
      end.
Proof.
  unfold tx_Save. split; [apply exec_fst |].
  destruct (stmt_error tn d) as [e|] eqn:E.
  - by rewrite (rows_of_exec_err _ _ _ e E).
  - rewrite (rows_of_exec_ok _ _ _ E). by destruct (rows_of tn d !! id).
Qed.

#[local] Opaque GenerateRandomKey newSessionID tx_Create tx_Save.

Lemma Save_success_fact st r rw session w s w1 out :
  getSessionFromCookie st r (Session_name session) w = Ret (s, w1) →
  ¬ opt_MaxAge (Session_Options session) < 0 →
  Save st r rw session w = Ret out →
  err out = None →
  ∃ sc data' idw id,
    secureCookie st = Some sc
    ∧ id = match s with
           | Some s0 => ID s0
           | None => Session_ID (session' out)
           end
    ∧ Encode sc (Session_name session) (now w)
        (PValues (Session_Values session)) = Ok data'
    ∧ Encode sc (Session_name session) (now w) (PString id) = Ok idw
    ∧ headers' out
      = rw ++ [NewCookie (Session_name session) idw (Session_Options session)]
    ∧ records st (world' out) !! id
      = Some {| data := data';
                created_at := match s with
                              | Some s0 => CreatedAt s0
                              | None => now w
                              end;
                updated_at := now w;
                expires_at :=
                  now w + wrap64 (Second * opt_MaxAge (Session_Options session)) |}
    ∧ (∀ id', id' ≠ id →
              records st (world' out) !! id' = records st w !! id')
    ∧ match s with
      | Some _ => session' out = session
      | None => session' out = with_ID session id
                ∧ id = newSessionID (GenerateRandomKey sessionIDLen w1).1
                ∧ records st w !! id = None
      end.
Proof.
  intros Hlook Hage HS Herr.
  destruct (CookieProofs.getSessionFromCookie_inv _ _ _ _ _ _ Hlook)
    as (Hrec & Hnow & _ & _ & _).
  destruct (secureCookie st) as [sc|] eqn:Hsc.
  2:{ unfold Save in HS. rewrite Hlook in HS. cbn [mbind outcome_bind] in HS.
      destruct (decide (opt_MaxAge (Session_Options session) < 0)); [done |].
      by rewrite Hsc in HS. }
  rewrite (Save_steps _ _ _ _ _ _ _ _ Hlook Hage Hsc) in HS.
  rewrite Hnow in HS.
  destruct (Encode sc (Session_name session) (now w)
              (PValues (Session_Values session))) as [data'|e] eqn:Henc.
  2:{ injection HS as <-. done. }
  cbv zeta in HS. destruct s as [s0|].
  - destruct (tx_Save_rows (sessionTable st) (ID s0)
                {| data := data'; created_at := CreatedAt s0; updated_at := now w;
                   expires_at := Time_Add (now w)
                     (wrap64 (Second * opt_MaxAge (Session_Options session))) |}
                (conn w1)) as [Hfst Hrows].
    rewrite Hfst in HS.
    destruct (stmt_error (sessionTable st) (conn w1)) as [e|].
    { injection HS as <-. done. }
    destruct (Encode sc (Session_name session) (now w) (PString (ID s0)))
      as [idw|e] eqn:Hid.
    2:{ injection HS as <-. done. }
    injection HS as <-. simpl.
    exists sc, data', idw, (ID s0). rewrite CookieProofs.records_with_conn, Hrows.
    fold (records st w1). rewrite Hrec.
    split_and!; try done; [apply lookup_insert_eq |].
    intros id' Hne. by rewrite lookup_insert_ne.
  - set (id := newSessionID (GenerateRandomKey sessionIDLen w1).1) in *.
    set (row := {| data := data' |}) in *.
    destruct ((tx_Create (sessionTable st) id row (conn w1)).1) as [e|] eqn:Etx.
    { injection HS as <-. done. }
    destruct (tx_Create_ok _ _ _ _ Etx) as (_ & Hfree & Hrows).
    destruct (Encode sc (Session_name session) (now w) (PString id))
      as [idw|e] eqn:Hid.
    2:{ injection HS as <-. done. }
    injection HS as <-. simpl.
    exists sc, data', idw, id. rewrite CookieProofs.records_with_conn, Hrows.
    fold (records st w1). fold (records st w1) in Hfree. rewrite Hrec in *.
    split_and!; try done; [apply lookup_insert_eq |].
    intros id' Hne. by rewrite lookup_insert_ne.
Qed.


(** X20. Values that do not encode are not saved: [Save] returns the
    envelope's error before it draws an ID or runs a write, so no row
    changes, no random byte is consumed, no header is written and the
    session is as it was. *)
Theorem Save_encode_failure_writes_nothing st r rw session w s w1 sc e :
  getSessionFromCookie st r (Session_name session) w = Ret (s, w1) →
  ¬ opt_MaxAge (Session_Options session) < 0 →
  secureCookie st = Some sc →
  Encode sc (Session_name session) (now w)
    (PValues (Session_Values session)) = Err e →
  ∃ out, Save st r rw session w = Ret out
    ∧ err out = Some e
    ∧ session' out = session
    ∧ headers' out = rw
    ∧ records st (world' out) = records st w
    ∧ drawn (world' out) = drawn w
    ∧ world' out = w1.
Proof.
  intros Hlook Hage Hsc Henc.
  destruct (CookieProofs.getSessionFromCookie_inv _ _ _ _ _ _ Hlook)
    as (Hrec & Hnow & _ & Hdrawn & _).
  rewrite (Save_steps _ _ _ _ _ _ _ _ Hlook Hage Hsc), Hnow, Henc.
  eexists. split; [done |]. by split_and!.
Qed.

(** X21. A write the store refuses fails [Save] without a cookie and without
    a change to any row; but when the session had no row, its ID has
    already been replaced by the newly generated one, which then names
    nothing. *)
Theorem Save_failed_write st r rw session w s w1 sc (data' : wire) e :
  getSessionFromCookie st r (Session_name session) w = Ret (s, w1) →
  ¬ opt_MaxAge (Session_Options session) < 0 →
  secureCookie st = Some sc →
  Encode sc (Session_name session) (now w)
    (PValues (Session_Values session)) = Ok data' →
  store_error st w1 = Some e →
  ∃ out, Save st r rw session w = Ret out
    ∧ err out = Some e
    ∧ headers' out = rw
    ∧ records st (world' out) = records st w
    ∧ session' out
      = match s with
        | Some _ => session
        | None => with_ID session
                    (newSessionID (GenerateRandomKey sessionIDLen w1).1)
        end.
Proof.
  intros Hlook Hage Hsc Henc Herr.
  destruct (CookieProofs.getSessionFromCookie_inv _ _ _ _ _ _ Hlook)
    as (Hrec & Hnow & _ & _ & _).
  rewrite (Save_steps _ _ _ _ _ _ _ _ Hlook Hage Hsc), Hnow, Henc.
  cbv zeta. destruct s as [s0|].
  - destruct (tx_Save_rows (sessionTable st) (ID s0)
                {| data := data'; created_at := CreatedAt s0; updated_at := now w;
                   expires_at := Time_Add (now w)
                     (wrap64 (Second * opt_MaxAge (Session_Options session))) |}
                (conn w1)) as [Hfst Hrows].
    rewrite Hfst. fold (store_error st w1). rewrite Herr.
    eexists. split; [done |]. simpl. split_and!; try done.
    rewrite CookieProofs.records_with_conn, Hrows.
    fold (store_error st w1). by rewrite Herr.
  - set (id := newSessionID (GenerateRandomKey sessionIDLen w1).1) in *.
    set (row := {| data := data' |}) in *.
    assert (Etx : (tx_Create (sessionTable st) id row (conn w1)).1 = Some e).
    { by apply tx_Create_refused. }
    rewrite Etx. eexists. split; [done |]. simpl. split_and!; try done.
    by rewrite CookieProofs.records_with_conn, (tx_Create_err _ _ _ _ e Etx).
Qed.

(** X23. A session saved with max-age 0 is born expired: its row is written
    with [expires_at = now], so from that moment on no lookup, whatever
    the request, returns it. *)
Theorem Save_zero_max_age_born_expired st r rw session w s w1 out :
  getSessionFromCookie st r (Session_name session) w = Ret (s, w1) →
  opt_MaxAge (Session_Options session) = 0 →
  Save st r rw session w = Ret out →
  err out = None →
  ∃ id (c : Cols),
    id = match s with
         | Some s0 => ID s0
         | None => Session_ID (session' out)
         end
    ∧ records st (world' out) !! id = Some c
    ∧ expires_at c = now w
    ∧ ∀ w' r' name' s' w2,
        records st w' !! id = Some c →
        now w ≤ now w' →
        getSessionFromCookie st r' name' w' = Ret (Some s', w2) →
        ID s' ≠ id.
Proof.
  intros Hlook Hzero HS Herr.
  assert (Hage : ¬ opt_MaxAge (Session_Options session) < 0) by lia.
  destruct (Save_success_fact _ _ _ _ _ _ _ _ Hlook Hage HS Herr)
    as (sc & data' & idw & id & _ & Hid & _ & _ & _ & Hrow & _).
  rewrite Hzero, Z.mul_0_r in Hrow. change (wrap64 0) with 0 in Hrow.
  rewrite Z.add_0_r in Hrow.
  eexists id, _. split; [done |]. split; [exact Hrow |]. split; [done |].
  intros w' r' name' s' w2 Hrow' Hlater Hlook' Heq.
  destruct (CookieProofs.getSessionFromCookie_inv _ _ _ _ _ _ Hlook')
    as (_ & _ & _ & _ & Hs).
  destruct (Hs s' eq_refl) as [Hin Hlive].
  rewrite Heq, Hrow' in Hin. injection Hin as _ _ _ He.
  simpl in Hlive. lia.
Qed.

Lemma lookup_keeps_process st r name w s w1 :
  getSessionFromCookie st r name w = Ret (s, w1) →
  now w1 = now w ∧ DefaultOptions w1 = DefaultOptions w.
Proof.
  unfold getSessionFromCookie.
  destruct (Request_Cookie r name) as [cookie|]; [| by intros [= <- <-]].
  destruct (secureCookie st) as [sc|]; [| done]. simpl.
  destruct (Decode_string sc name (now w) (Cookie_Value cookie));
    [| by intros [= <- <-]].
  destruct (tx_Find _ _ _ _) as [[[e|] [c|]] d]; simpl; by intros [= <- <-].
Qed.

(** [Save] leaves the clock and the package options alone. *)
Lemma Save_keeps_process st r rw session w out :
  Save st r rw session w = Ret out →
  now (world' out) = now w ∧ DefaultOptions (world' out) = DefaultOptions w.
Proof.
  intros HS.
  destruct (getSessionFromCookie st r (Session_name session) w)
    as [[s w1]|] eqn:Hlook.
  2:{ unfold Save in HS. by rewrite Hlook in HS. }
  destruct (lookup_keeps_process _ _ _ _ _ _ Hlook) as [Hnow Hopt].
  destruct (decide (opt_MaxAge (Session_Options session) < 0)) as [Hneg|Hage].
  - unfold Save in HS. rewrite Hlook in HS. cbn [mbind outcome_bind] in HS.
    destruct (decide (opt_MaxAge (Session_Options session) < 0)); [| done].
    destruct s as [s0|]; [| by injection HS as <-].
    destruct ((tx_Delete_pk (sessionTable st) (ID s0) (conn w1)).1);
      by injection HS as <-.
  - destruct (secureCookie st) as [sc|] eqn:Hsc.
    2:{ unfold Save in HS. rewrite Hlook in HS. cbn [mbind outcome_bind] in HS.
        destruct (decide (opt_MaxAge (Session_Options session) < 0)); [done |].
        by rewrite Hsc in HS. }
    rewrite (Save_steps _ _ _ _ _ _ _ _ Hlook Hage Hsc) in HS.
    destruct (Encode sc (Session_name session) (now w1)
                (PValues (Session_Values session))); [| by injection HS as <-].
    cbv zeta in HS.
    assert (Hw2 : ∀ d, now (with_conn match s with
                                      | Some _ => w1
                                      | None => (GenerateRandomKey sessionIDLen w1).2
                                      end d) = now w
                       ∧ DefaultOptions (with_conn match s with
                                      | Some _ => w1
                                      | None => (GenerateRandomKey sessionIDLen w1).2
                                      end d) = DefaultOptions w).
    { intros d. destruct s; [done |].
      by rewrite CookieProofs.GenerateRandomKey_world. }
    destruct (match s with
              | Some _ => tx_Save _ _ _ _ _
              | None => tx_Create _ _ _ _
              end) as [[e|] d]; simpl in HS.
    + injection HS as <-. apply Hw2.
    + destruct (Encode sc _ _ (PString _)); injection HS as <-; apply Hw2.
Qed.


(** X22. A lookup the store fails is taken for "no session", also by [Save]:
    when the request carries a good cookie but the query fails and the
    following insert succeeds, [Save] does not update the session's row.
    It stores the values in a new row under a newly generated ID, hands
    that ID to the session and to the cookie, and leaves every other row,
    the old one included, as it was. *)
Theorem Save_after_failed_lookup st r rw session w cookie sc id e out :
  Request_Cookie r (Session_name session) = Some cookie →
  secureCookie st = Some sc →
  Decode_string sc (Session_name session) (now w) (Cookie_Value cookie) = Ok id →
  store_error st w = Some e →
  ¬ opt_MaxAge (Session_Options session) < 0 →
  Save st r rw session w = Ret out →
  err out = None →
  ∃ new_id idw (c : Cols),
    session' out = with_ID session new_id
    ∧ records st w !! new_id = None
    ∧ records st (world' out) !! new_id = Some c
    ∧ Encode sc (Session_name session) (now w) (PString new_id) = Ok idw
    ∧ headers' out
      = rw ++ [NewCookie (Session_name session) idw (Session_Options session)]
    ∧ (∀ id', id' ≠ new_id →
              records st (world' out) !! id' = records st w !! id').
Proof.
  intros Hcookie Hsc Hdec Hdown Hage HS Herr.
  destruct (lookup_by_cookie_fact st r (Session_name session) w cookie sc id
              Hcookie Hsc Hdec) as (w1 & Hlook & _).
  rewrite Hdown in Hlook.
  destruct (Save_success_fact _ _ _ _ _ _ _ _ Hlook Hage HS Herr)
    as (sc' & data' & idw & new_id & Hsc' & _ & _ & Hencid & Hh & Hrow & Hframe
        & Hsess & _ & Hfree).
  rewrite Hsc in Hsc'. injection Hsc' as <-.
  by eexists new_id, idw, _.
Qed.

(** X11. What [NewOptions] builds from a non-empty key list: a store with
    those keys, session options of path ["/"] and max-age 30 days, and
    the table ["sessions"] unless the options name another.  It leaves
    clock and random source alone; when the migration is not skipped and
    the connection runs it, the table exists afterwards with the rows it
    had. *)
Theorem NewOptions_defaults (o : Options) k ks w :
  ∃ st w', NewOptions o (k :: ks) w = Ret (st, w')
    ∧ keys st = k :: ks
    ∧ SessionOpts st = {| opt_Path := "/"; opt_Domain := "";
                          opt_MaxAge := 2592000;
                          opt_Secure := false; opt_HttpOnly := false |}
    ∧ sessionTable st
      = (if decide (TableName o = "") then "sessions"%string else TableName o)
    ∧ now w' = now w ∧ drawn w' = drawn w
    ∧ records st w' = records st w
    ∧ (SkipCreateTable o = false → next_fault (conn w) = None →
       is_Some (tables (conn w') !! sessionTable st)).
Proof.
  unfold NewOptions. simpl.
  destruct (decide (TableName o = "")) as [Hn|Hn]; simpl;
    destruct (SkipCreateTable o) eqn:Hs; simpl;
    eexists _, _; (split; [reflexivity |]); simpl; split_and!; try done;
    try (by rewrite CookieProofs.records_with_conn,
           DriverExtra.rows_of_tx_AutoMigrate);
    intros _ Hok; unfold tx_AutoMigrate; rewrite Hok; simpl;
    rewrite lookup_insert_eq; by eexists.
Qed.

End AnyEnvelope.
End CookieExtra.

(** ** Saving, then loading, over the modelled envelope *)
Module EnvelopeExtra.
Import Cookie Envelope.

Lemma seal_Ok (sc : SC) name t p v :
  seal sc name t p = Ok v → v = Sealed (sc_key sc) name t p.
Proof.
  unfold seal. destruct (decide (too_long sc _)); [done |]. by intros [= <-].
Qed.

Lemma open_sealed (sc : SC) name t k ts p :
  k ∈ accepted sc →
  ¬ too_long sc (Sealed k name ts p) →
  ¬ expired sc ts t →
  open sc name t (Sealed k name ts p) = Ok p.
Proof.
  intros Hk Hlen Hage. unfold open.
  destruct (decide (too_long sc _)); [done |].
  destruct (decide (k ∈ accepted sc ∧ name = name)) as [_|Hno]; [| tauto].
  by destruct (decide (expired sc ts t)).
Qed.

(** Round trip through the cookie.  A store built by [NewOptions] saves
    a new session (the request carries no cookie of that name) with a
    max-age between 1 and 9223372036 seconds; the store's own max-age is
    not negative, and the package length limit is off or leaves room for
    the encoded ID (100 bytes) and the encoded values.  If [Save]
    succeeds, then [Store.New] on a request carrying the cookie just
    issued, at the same instant and with the store answering, returns
    the saved session: same ID, same values, not new. *)
Theorem Save_then_New_roundtrip ks (st : Store) r session w out :
  configured ks st →
  Request_Cookie r (Session_name session) = None →
  0 < opt_MaxAge (Session_Options session) ≤ 9223372036 →
  0 ≤ opt_MaxAge (SessionOpts st) →
  sc_MaxLength (DefaultOptions w) = 0
  ∨ (100 ≤ sc_MaxLength (DefaultOptions w)
     ∧ overhead + payload_len (PValues (Session_Values session))
       ≤ sc_MaxLength (DefaultOptions w)) →
  Save st r [] session w = Ret out →
  err out = None →
  store_error st (world' out) = None →
  ∃ st1 w1,
    Store_New st {| Cookies := headers' out |} (Session_name session) (world' out)
    = Ret ({| Session_ID := Session_ID (session' out);
              Session_Values := Session_Values session;
              Session_Options := SessionOpts st;
              Session_IsNew := false;
              Session_name := Session_name session |}, st1, w1).
Proof.
  intros Hconf Hnocookie Hage Hstage Hlimit HS Herr Hok.
  destruct (CookieExtra.lookup_without_query_fact st r (Session_name session) w)
    as [Hlook _]. specialize (Hlook Hnocookie).
  assert (Hnn : ¬ opt_MaxAge (Session_Options session) < 0) by lia.
  destruct (CookieExtra.Save_success_fact _ _ _ _ _ _ _ _ Hlook Hnn HS Herr)
    as (sc & data' & idw & id & Hsc & Hid & Henc & Hencid & Hh & Hrow & _
        & _ & Hnew & _).
  destruct (CookieExtra.Save_keeps_process _ _ _ _ _ _ HS) as [Hnow Hopt].
  destruct (EnvelopeProofs.configured_envelope _ _ Hconf)
    as (Hkeys & k & rot & sc0 & -> & Hsc0 & Hk & Hrot).
  rewrite Hsc in Hsc0. injection Hsc0 as <-.
  apply seal_Ok in Henc. apply seal_Ok in Hencid. rewrite Hk in Henc, Hencid.
  assert (Hlen : String.length id = 52%nat).
  { rewrite Hnew. apply newSessionID_shape.
    apply CookieProofs.GenerateRandomKey_length. }
  set (sc1 := {| sc_key := k;
                 sc_opts := {| sc_MaxAge := opt_MaxAge (SessionOpts st);
                               sc_MaxLength := sc_MaxLength (DefaultOptions w);
                               sc_RotatedKeys := rot;
                               sc_Serializer := GobEncoder |} |}).
  assert (HM : ∃ st1 w0, MaxAge st (opt_MaxAge (SessionOpts st)) (world' out)
                         = Ret (st1, w0) ∧ secureCookie st1 = Some sc1).
  { unfold MaxAge. rewrite Hkeys. simpl. rewrite Hopt. by eexists _, _. }
  destruct HM as (st1 & w0 & HM & Hsc1).
  assert (Hacc : k ∈ accepted sc1) by (unfold accepted; simpl; constructor).
  assert (Hfresh : ∀ ts t, ts = t → ¬ expired sc1 ts t).
  { intros ts t -> [_ Hexp]. simpl in Hexp. unfold Second in Hexp. lia. }
  assert (Hfits : ∀ p, overhead + payload_len p ≤ sc_MaxLength (DefaultOptions w)
                       ∨ sc_MaxLength (DefaultOptions w) = 0 →
                       ∀ ts, ¬ too_long sc1 (Sealed k (Session_name session) ts p)).
  { intros p Hp ts [Hne Hgt]. simpl in Hne, Hgt. lia. }
  destruct (CookieExtra.Store_New_loads_fact st {| Cookies := headers' out |}
              (Session_name session) (world' out) st1 w0 sc1
              (NewCookie (Session_name session) idw (Session_Options session))
              id
              {| data := data'; created_at := now w; updated_at := now w;
                 expires_at :=
                   now w + wrap64 (Second * opt_MaxAge (Session_Options session)) |}
              (Session_Values session) HM) as [w1 HN]; try done.
  - rewrite Hh. unfold Request_Cookie. simpl. by rewrite bool_decide_eq_true_2.
  - simpl. rewrite Hencid, Hnow, open_sealed; try done.
    + apply Hfits. simpl. rewrite Hlen. unfold overhead. lia.
    + by apply Hfresh.
  - simpl. rewrite Hnow. unfold Second.
    rewrite DriverProofs.wrap64_small; unfold minInt64, maxInt64; lia.
  - simpl. rewrite Henc, Hnow, open_sealed; try done.
    + apply Hfits. lia.
    + by apply Hfresh.
  - exists st1, w1. by rewrite HN, Hid.
Qed.

End EnvelopeExtra.

(** ** Session IDs lose no entropy *)
Module SessionIDExtra.
Import base32 base32_groups.

Lemma in_all_bytes b : 0 ≤ b < 256 → In b all_bytes.
Proof.
  intros Hb. unfold all_bytes. apply in_map_iff. exists (Z.to_nat b).
  split; [lia |]. apply in_seq. lia.
Qed.

Lemma check1_sound (P : Z → bool) :
  check1 P = true → ∀ a, 0 ≤ a < 256 → P a = true.
Proof.
  unfold check1. rewrite forallb_forall. intros H a Ha.
  apply H, in_all_bytes, Ha.
Qed.

Lemma check2_sound (P : Z → Z → bool) :
  check2 P = true → ∀ a b, 0 ≤ a < 256 → 0 ≤ b < 256 → P a b = true.
Proof.
  unfold check2. rewrite forallb_forall. intros H a b Ha Hb.
  specialize (H a (in_all_bytes a Ha)). rewrite forallb_forall in H.
  apply H, in_all_bytes, Hb.
Qed.

(** Close a goal [∀ a (b), byte a → (byte b →) lhs = rhs] by running
    through all byte values. *)
Ltac by_bytes1 :=
  let a := fresh "a" in let Ha := fresh "Ha" in
  intros a Ha; apply Z.eqb_eq;
  match goal with
  | |- ?G =>
      match eval pattern a in G with
      | ?F _ =>
          match F with
          | (λ x, @?P x = true) =>
              exact (check1_sound P ltac:(vm_compute; reflexivity) a Ha)
          end
      end
  end.

Ltac by_bytes2 :=
  let a := fresh "a" in let b := fresh "b" in
  let Ha := fresh "Ha" in let Hb := fresh "Hb" in
  intros a b Ha Hb; apply Z.eqb_eq;
  match goal with
  | |- ?G =>
      match eval pattern a, b in G with
      | ?F _ _ =>
          match F with
          | (λ x y, @?P x y = true) =>
              exact (check2_sound P ltac:(vm_compute; reflexivity) a b Ha Hb)
          end
      end
  end.

Lemma map_mask_quantum s0 s1 s2 s3 s4 :
  map mask (quantum s0 s1 s2 s3 s4)
  = [g0 s0; g1 s0 s1; g2 s1; g3 s1 s2; g4 s2 s3; g5 s3; g6 s3 s4; g7 s4].
Proof. reflexivity. Qed.

(** Each byte can be read back from the groups it went into. *)
Lemma byte0 : ∀ s0 s1, 0 ≤ s0 < 256 → 0 ≤ s1 < 256 →
  Z.lor (Z.shiftl (g0 s0) 3) (Z.shiftr (g1 s0 s1) 2) = s0.
Proof. by_bytes2. Qed.

Lemma byte1_hi : ∀ s0 s1, 0 ≤ s0 < 256 → 0 ≤ s1 < 256 →
  Z.land (g1 s0 s1) 3 = Z.shiftr s1 6.
Proof. by_bytes2. Qed.

Lemma byte1_lo : ∀ s1 s2, 0 ≤ s1 < 256 → 0 ≤ s2 < 256 →
  Z.shiftr (g3 s1 s2) 4 = Z.land s1 1.
Proof. by_bytes2. Qed.

Lemma byte1 : ∀ s1, 0 ≤ s1 < 256 →
  Z.lor (Z.lor (Z.shiftl (Z.shiftr s1 6) 6) (Z.shiftl (g2 s1) 1)) (Z.land s1 1)
  = s1.
Proof. by_bytes1. Qed.

Lemma byte2_hi : ∀ s1 s2, 0 ≤ s1 < 256 → 0 ≤ s2 < 256 →
  Z.land (g3 s1 s2) 15 = Z.shiftr s2 4.
Proof. by_bytes2. Qed.

Lemma byte2_lo : ∀ s2 s3, 0 ≤ s2 < 256 → 0 ≤ s3 < 256 →
  Z.shiftr (g4 s2 s3) 1 = Z.land s2 15.
Proof. by_bytes2. Qed.

Lemma byte2 : ∀ s2, 0 ≤ s2 < 256 →
  Z.lor (Z.shiftl (Z.shiftr s2 4) 4) (Z.land s2 15) = s2.
Proof. by_bytes1. Qed.

Lemma byte3_hi : ∀ s2 s3, 0 ≤ s2 < 256 → 0 ≤ s3 < 256 →
  Z.land (g4 s2 s3) 1 = Z.shiftr s3 7.
Proof. by_bytes2. Qed.

Lemma byte3_lo : ∀ s3 s4, 0 ≤ s3 < 256 → 0 ≤ s4 < 256 →
  Z.shiftr (g6 s3 s4) 3 = Z.land s3 3.
Proof. by_bytes2. Qed.

Lemma byte3 : ∀ s3, 0 ≤ s3 < 256 →
  Z.lor (Z.lor (Z.shiftl (Z.shiftr s3 7) 7) (Z.shiftl (g5 s3) 2)) (Z.land s3 3)
  = s3.
Proof. by_bytes1. Qed.

Lemma byte4_hi : ∀ s3 s4, 0 ≤ s3 < 256 → 0 ≤ s4 < 256 →
  Z.land (g6 s3 s4) 7 = Z.shiftr s4 5.
Proof. by_bytes2. Qed.

Lemma byte4 : ∀ s4, 0 ≤ s4 < 256 →
  Z.lor (Z.shiftl (Z.shiftr s4 5) 5) (g7 s4) = s4.
Proof. by_bytes1. Qed.

(** Two quanta with the same groups are the same five bytes. *)
Lemma quantum_inj s0 s1 s2 s3 s4 t0 t1 t2 t3 t4 :
  0 ≤ s0 < 256 → 0 ≤ s1 < 256 → 0 ≤ s2 < 256 → 0 ≤ s3 < 256 → 0 ≤ s4 < 256 →
  0 ≤ t0 < 256 → 0 ≤ t1 < 256 → 0 ≤ t2 < 256 → 0 ≤ t3 < 256 → 0 ≤ t4 < 256 →
  map mask (quantum s0 s1 s2 s3 s4) = map mask (quantum t0 t1 t2 t3 t4) →
  s0 = t0 ∧ s1 = t1 ∧ s2 = t2 ∧ s3 = t3 ∧ s4 = t4.
Proof.
  intros Hs0 Hs1 Hs2 Hs3 Hs4 Ht0 Ht1 Ht2 Ht3 Ht4.
  rewrite !map_mask_quantum. intros [= E0 E1 E2 E3 E4 E5 E6 E7].
  split_and!.
  - by rewrite <- (byte0 s0 s1), <- (byte0 t0 t1), E0, E1.
  - rewrite <- (byte1 s1), <- (byte1 t1) by done.
    rewrite <- (byte1_hi s0 s1), <- (byte1_hi t0 t1) by done.
    rewrite <- (byte1_lo s1 s2), <- (byte1_lo t1 t2) by done.
    by rewrite E1, E2, E3.
  - rewrite <- (byte2 s2), <- (byte2 t2) by done.
    rewrite <- (byte2_hi s1 s2), <- (byte2_hi t1 t2) by done.
    rewrite <- (byte2_lo s2 s3), <- (byte2_lo t2 t3) by done.
    by rewrite E3, E4.
  - rewrite <- (byte3 s3), <- (byte3 t3) by done.
    rewrite <- (byte3_hi s2 s3), <- (byte3_hi t2 t3) by done.
    rewrite <- (byte3_lo s3 s4), <- (byte3_lo t3 t4) by done.
    by rewrite E4, E5, E6.
  - rewrite <- (byte4 s4), <- (byte4 t4) by done.
    rewrite <- (byte4_hi s3 s4), <- (byte4_hi t3 t4) by done.
    by rewrite E6, E7.
Qed.

(** The same for the last, two-byte quantum of a 32-byte input, of
    which four groups are kept. *)
Lemma quantum_inj_2 s0 s1 t0 t1 :
  0 ≤ s0 < 256 → 0 ≤ s1 < 256 → 0 ≤ t0 < 256 → 0 ≤ t1 < 256 →
  map mask (take 4 (quantum s0 s1 0 0 0))
  = map mask (take 4 (quantum t0 t1 0 0 0)) →
  s0 = t0 ∧ s1 = t1.
Proof.
  intros Hs0 Hs1 Ht0 Ht1.
  change (map mask (take 4 (quantum s0 s1 0 0 0)))
    with [g0 s0; g1 s0 s1; g2 s1; g3 s1 0].
  change (map mask (take 4 (quantum t0 t1 0 0 0)))
    with [g0 t0; g1 t0 t1; g2 t1; g3 t1 0].
  intros [= E0 E1 E2 E3]. split.
  - by rewrite <- (byte0 s0 s1), <- (byte0 t0 t1), E0, E1.
  - rewrite <- (byte1 s1), <- (byte1 t1) by done.
    rewrite <- (byte1_hi s0 s1), <- (byte1_hi t0 t1) by done.
    rewrite <- (byte1_lo s1 0), <- (byte1_lo t1 0) by (done || lia).
    by rewrite E1, E2, E3.
Qed.

(** A character of the alphabet determines its group. *)
Lemma dec_enc_char b : dec_char (enc_char b) = mask b.
Proof.
  unfold enc_char, mask.
  assert (Hb : 0 ≤ Z.land b 31 < 32).
  { change 31 with (Z.ones 5). rewrite Z.land_ones by lia.
    apply Z.mod_pos_bound. lia. }
  assert (Hall : forallb (λ i, Z.eqb (dec_char (nth i encodeStd "A"%char))
                                 (Z.of_nat i)) (seq 0 32) = true)
    by (vm_compute; reflexivity).
  rewrite forallb_forall in Hall.
  specialize (Hall (Z.to_nat (Z.land b 31))).
  rewrite Z.eqb_eq in Hall. rewrite Hall; [lia |]. apply in_seq. lia.
Qed.

Lemma map_enc_char_inj (l l' : list Z) :
  map enc_char l = map enc_char l' → map mask l = map mask l'.
Proof.
  intros Heq. apply (f_equal (map dec_char)) in Heq.
  rewrite !map_map in Heq.
  rewrite (map_ext _ mask dec_enc_char l) in Heq.
  by rewrite (map_ext _ mask dec_enc_char l') in Heq.
Qed.

(** The characters of a session ID are those of the groups of its 32
    bytes. *)
Lemma newSessionID_chars (rnd : list Z) :
  length rnd = 32%nat →
  String.list_ascii_of_string (Cookie.newSessionID rnd)
  = map enc_char (groups rnd).
Proof.
  intros Hlen.
  do 32 (destruct rnd as [|? rnd]; [discriminate Hlen |]).
  destruct rnd; [| discriminate Hlen]. clear Hlen.
  unfold Cookie.newSessionID, TrimRight, EncodeToString.
  rewrite !String.list_ascii_of_string_of_list_ascii.
  cbn [Encode groups quantum_chars quantum take map replicate app Nat.sub].
  rewrite !trim_right_chars_cons_ne by apply enc_char_not_pad.
  reflexivity.
Qed.

Lemma chunk_inj s0 s1 s2 s3 s4 t0 t1 t2 t3 t4 (l l' : list Z) :
  0 ≤ s0 < 256 → 0 ≤ s1 < 256 → 0 ≤ s2 < 256 → 0 ≤ s3 < 256 → 0 ≤ s4 < 256 →
  0 ≤ t0 < 256 → 0 ≤ t1 < 256 → 0 ≤ t2 < 256 → 0 ≤ t3 < 256 → 0 ≤ t4 < 256 →
  map mask (quantum s0 s1 s2 s3 s4 ++ l) = map mask (quantum t0 t1 t2 t3 t4 ++ l') →
  (s0 = t0 ∧ s1 = t1 ∧ s2 = t2 ∧ s3 = t3 ∧ s4 = t4) ∧ map mask l = map mask l'.
Proof.
  intros Hs0 Hs1 Hs2 Hs3 Hs4 Ht0 Ht1 Ht2 Ht3 Ht4. rewrite !map_app.
  intros Heq. apply app_inj_1 in Heq as [Hq Hl]; [| done].
  split; [by apply quantum_inj | done].
Qed.

(** X26. The session ID determines the 32 random bytes it was made from:
    base-32 encoding followed by trimming the padding loses nothing, so
    two IDs are equal only if all 256 random bits are. *)
Theorem newSessionID_injective (rnd rnd' : list Z) :
  length rnd = 32%nat →
  length rnd' = 32%nat →
  Forall (λ b, 0 ≤ b < 256) rnd →
  Forall (λ b, 0 ≤ b < 256) rnd' →
  Cookie.newSessionID rnd = Cookie.newSessionID rnd' →
  rnd = rnd'.
Proof.
  intros Hlen Hlen' Hb Hb' Heq.
  apply (f_equal String.list_ascii_of_string) in Heq.
  rewrite (newSessionID_chars _ Hlen), (newSessionID_chars _ Hlen') in Heq.
  apply map_enc_char_inj in Heq.
  do 32 (destruct rnd as [|? rnd]; [discriminate Hlen |]).
  destruct rnd; [| discriminate Hlen]. clear Hlen.
  do 32 (destruct rnd' as [|? rnd']; [discriminate Hlen' |]).
  destruct rnd'; [| discriminate Hlen']. clear Hlen'.
  repeat match goal with
         | H : Forall _ (_ :: _) |- _ => apply Forall_cons in H as [? H]
         end.
  cbn [groups] in Heq.
  do 6 (apply chunk_inj in Heq as [(-> & -> & -> & -> & ->) Heq]; [| done ..]).
  apply quantum_inj_2 in Heq as [-> ->]; done.
Qed.

End SessionIDExtra.

(** ** The extra properties, run on the concrete cookie store *)
Module ExtraWitnesses.
Import Cookie Envelope CookieExamples ExtraExamples.

Lemma lookup_without_query_witness :
  getSessionFromCookie st no_cookie "sid" w2 = Ret (None, w2)
  ∧ getSessionFromCookie st_dropped with_cookie "sid" w2 = Ret (None, w2).
Proof.
  split.
  - apply (CookieExtra.lookup_without_query st no_cookie "sid" w2). reflexivity.
  - destruct (CookieExtra.lookup_without_query st_dropped with_cookie "sid" w2)
      as [_ Hbad].
    apply (Hbad cookie1
             {| sc_key := key_b;
                sc_opts := {| sc_MaxAge := 0; sc_MaxLength := 0;
                              sc_RotatedKeys := [key_c];
                              sc_Serializer := GobEncoder |} |}
             "the value is not valid"%string); reflexivity.
Defined.

Lemma lookup_by_cookie_witness :
  ∃ w', getSessionFromCookie st with_cookie "sid" w2
        = Ret (Some (of_row id1 row1), w').
Proof.
  destruct (CookieExtra.lookup_by_cookie st with_cookie "sid" w2 cookie1 sc_a id1)
    as (w' & Hlook & _); [reflexivity ..|].
  exists w'. exact Hlook.
Defined.

Lemma Store_New_sound_witness :
  records loaded.1.2 loaded.2 = records st w2
  ∧ Session_name loaded.1.1 = "sid"%string.
Proof.
  destruct (CookieExtra.Store_New_sound st with_cookie "sid" w2
              loaded.1.1 loaded.1.2 loaded.2) as (Hrec & Hname & _);
    [reflexivity |].
  split; [exact Hrec | exact Hname].
Defined.

Lemma Store_New_loads_witness :
  ∃ w', Store_New st with_cookie "sid" w2
        = Ret ({| Session_ID := id1;
                  Session_Values := {[ "user"%string := "alice"%string ]};
                  Session_Options := SessionOpts st; Session_IsNew := false;
                  Session_name := "sid" |}, st_aged, w').
Proof.
  apply (CookieExtra.Store_New_loads st with_cookie "sid" w2 st_aged w2_aged
           sc_aged cookie1 id1 row1);
    reflexivity.
Defined.

Lemma Store_New_undecodable_data_witness :
  ∃ w', Store_New st with_cookie "sid" w_bad
        = Ret (fresh_session st "sid",
               (returned (nil_store, w_bad)
                  (MaxAge st (opt_MaxAge (SessionOpts st)) w_bad)).1, w')
        ∧ records
            (returned (nil_store, w_bad)
               (MaxAge st (opt_MaxAge (SessionOpts st)) w_bad)).1 w'
          !! id1 = Some bad_row.
Proof.
  apply (CookieExtra.Store_New_undecodable_data st with_cookie "sid" w_bad
           (returned (nil_store, w_bad)
              (MaxAge st (opt_MaxAge (SessionOpts st)) w_bad)).1
           (returned (nil_store, w_bad)
              (MaxAge st (opt_MaxAge (SessionOpts st)) w_bad)).2
           sc_aged cookie1 id1 bad_row "the value is not valid"%string);
    reflexivity.
Defined.

Lemma NewOptions_defaults_witness :
  ∃ st' w', NewOptions {| TableName := ""; SkipCreateTable := false |}
              [key_a; key_b] w0 = Ret (st', w')
            ∧ sessionTable st' = "sessions"%string
            ∧ is_Some (tables (conn w') !! sessionTable st').
Proof.
  destruct (CookieExtra.NewOptions_defaults
              {| TableName := ""; SkipCreateTable := false |} key_a [key_b] w0)
    as (st' & w' & Hnew & _ & _ & Hname & _ & _ & _ & Htable).
  exists st', w'. split; [exact Hnew |]. split; [exact Hname |].
  apply Htable; reflexivity.
Defined.

Lemma configured_st : configured [key_a] st.
Proof.
  apply (configured_NewOptions [key_a]
           {| TableName := ""; SkipCreateTable := false |} w0 st w1).
  reflexivity.
Qed.

Lemma MaxAge_MaxLength_on_configured_witness :
  ∃ st1 w1' st2 w2',
    MaxAge st 3600 w2 = Ret (st1, w1')
    ∧ MaxLength st 1024 w2 = Ret (st2, w2')
    ∧ keys st1 = [key_a] ∧ keys st2 = [key_a]
    ∧ opts st1 = opts st ∧ opts st2 = opts st
    ∧ opt_MaxAge (SessionOpts st1) = 3600 ∧ SessionOpts st2 = SessionOpts st
    ∧ conn w1' = conn w2 ∧ conn w2' = conn w2
    ∧ sc_MaxAge (DefaultOptions w1') = 3600
    ∧ sc_MaxLength (DefaultOptions w2') = 1024.
Proof.
  apply (CookieExtra.MaxAge_MaxLength_on_configured [key_a] st 3600 1024 w2).
  exact configured_st.
Defined.

Lemma envelope_limits_are_shared_witness :
  ∃ a' w', MaxAge st 3600 w1_60 = Ret (a', w')
           ∧ secureCookie a'
             = Some {| sc_key := key_a;
                       sc_opts := {| sc_MaxAge := 3600; sc_MaxLength := 60;
                                     sc_RotatedKeys := [];
                                     sc_Serializer := GobEncoder |} |}.
Proof.
  destruct (CookieExtra.envelope_limits_are_shared st st_rotated 3600 60 w1
              key_a []) as [Hshared _]; [reflexivity |].
  apply (Hshared (returned (nil_store, w1) (MaxLength st_rotated 60 w1)).1 w1_60).
  reflexivity.
Defined.

Lemma Cleanup_invisible_to_lookups_witness :
  ∃ w', getSessionFromCookie st with_cookie "sid" (Cleanup st w2)
        = Ret (Some (of_row id1 row1), w').
Proof.
  apply (CookieExtra.Cleanup_invisible_to_lookups st with_cookie "sid" w2
           (Some (of_row id1 row1)) w3); reflexivity.
Defined.


Lemma Save_encode_failure_writes_nothing_witness :
  ∃ out, Save st60 no_cookie [] long_session w1_60 = Ret out
         ∧ err out = Some "the value is too long"%string
         ∧ records st60 (world' out) = records st60 w1_60
         ∧ world' out = w1_60.
Proof.
  assert (Hage : ¬ opt_MaxAge (Session_Options long_session) < 0)
    by (simpl; lia).
  destruct (CookieExtra.Save_encode_failure_writes_nothing st60 no_cookie []
              long_session w1_60 None w1_60
              {| sc_key := key_a;
                 sc_opts := {| sc_MaxAge := 86400 * 30; sc_MaxLength := 60;
                               sc_RotatedKeys := [];
                               sc_Serializer := GobEncoder |} |}
              "the value is too long"%string)
    as (out & HS & He & _ & _ & Hrec & _ & Hw);
    [reflexivity | exact Hage | reflexivity | reflexivity |].
  exists out. split; [exact HS |]. split; [exact He |].
  split; [exact Hrec | exact Hw].
Defined.

Lemma Save_failed_write_witness :
  ∃ out, Save st no_cookie [] session0 w1_down = Ret out
         ∧ err out = Some "connection refused"%string
         ∧ headers' out = []
         ∧ Session_ID (session' out) = id1.
Proof.
  assert (Hage : ¬ opt_MaxAge (Session_Options session0) < 0) by (simpl; lia).
  destruct (CookieExtra.Save_failed_write st no_cookie [] session0 w1_down
              None w1_down sc_a data1 "connection refused"%string)
    as (out & HS & He & Hh & _ & Hsess);
    [reflexivity | exact Hage | reflexivity | reflexivity | reflexivity |].
  exists out. split; [exact HS |]. split; [exact He |]. split; [exact Hh |].
  rewrite Hsess. reflexivity.
Defined.

Lemma Save_zero_max_age_born_expired_witness :
  ∃ c : Cols, records st (world' saved_zero) !! id1 = Some c
              ∧ expires_at c = now w1.
Proof.
  destruct (CookieExtra.Save_zero_max_age_born_expired st no_cookie []
              session_zero w1 None w1 saved_zero)
    as (id & c & Hid & Hrow & Hexp & _); [reflexivity ..|].
  exists c. split; [| exact Hexp].
  change id1 with (Session_ID (session' saved_zero)). rewrite <- Hid. exact Hrow.
Defined.


Lemma Save_after_failed_lookup_witness :
  ∃ out, Save st with_cookie [] session0 w2_lookup_down = Ret out
         ∧ Session_ID (session' out) ≠ id1
         ∧ records st (world' out) !! id1 = Some row1.
Proof.
  assert (Hage : ¬ opt_MaxAge (Session_Options session0) < 0) by (simpl; lia).
  destruct (CookieExtra.Save_after_failed_lookup st with_cookie [] session0
              w2_lookup_down cookie1 sc_a id1 "connection refused"%string
              forked)
    as (new_id & idw & c & Hsess & _ & _ & _ & _ & Hframe);
    [reflexivity .. | exact Hage | reflexivity | reflexivity |].
  exists forked. split; [reflexivity |]. split.
  - rewrite Hsess. simpl. intros Heq.
    assert (Hid : new_id = Session_ID (session' forked)) by (by rewrite Hsess).
    rewrite Hid in Heq. revert Heq. vm_compute. discriminate.
  - rewrite Hframe; [reflexivity |].
    assert (Hid : new_id = Session_ID (session' forked)) by (by rewrite Hsess).
    rewrite Hid. vm_compute. discriminate.
Defined.

Lemma newSessionID_injective_witness : rnd1 = rnd1.
Proof.
  apply (SessionIDExtra.newSessionID_injective rnd1 rnd1);
    try reflexivity;
    apply (CookieProofs.GenerateRandomKey_bytes sessionIDLen w1).
Defined.

End ExtraWitnesses.
